(** * The scheduler core of APScheduler: [apscheduler/schedulers/base.py]

    A shallow embedding of [BaseScheduler] and the properties of its
    mutation API and of its firing loop [_process_jobs].

    Modelling conventions.
    - A [datetime] is the instant it denotes, an integer number of
      microseconds; [timedelta(microseconds=1)] is [1].  The [tzinfo] label
      of an aware datetime takes no part in comparison or arithmetic and is
      not kept.
    - A scheduler method is a function from the scheduler object to the
      updated object and either a return value or a raised exception: what a
      method changed before it raised stays changed, as in Python.
    - Job stores, executors, jobs and triggers are collaborators whose code
      is not in this file.  They are interfaces here ([JobStore], [Executor],
      [JobAPI]); each call to a store or executor is recorded in the
      scheduler's [trace] with its outcome, next to the log records, the
      events handed to [_notify_listeners] and the calls of [_wakeup].
    - A job is a value: a call that changes a job object gives the job as
      it is afterwards.  Where Python keeps one object in two places (the
      pending list and a store), the model keeps two values; what is stated
      about such places does not depend on the sharing.
    - The three [RLock]s are reentrant and the model is sequential: taking
      them has no effect and is not modelled. *)

From Stdlib Require Import ZArith String List Lia.
From stdpp Require Import base option list strings pretty gmap fin_maps.

Local Open Scope string_scope.
Local Open Scope list_scope.
Local Open Scope Z_scope.

(** ** Python values *)

(** A [datetime] as a count of microseconds.  The count is unbounded: the
    [OverflowError] of datetime arithmetic at [datetime.max] is not
    modelled. *)
Definition Time := Z.
Definition TimeZone := string.

Inductive PyVal :=
| VNone
| VBool (b : bool)
| VInt (n : Z)
| VStr (s : string)
| VDateTime (t : Time)
| VTz (tz : TimeZone).

(** A [dict] with string keys, such as [**changes] and [**trigger_args]. *)
Abbreviation dict := (gmap string PyVal).

Inductive exn :=
| SchedulerAlreadyRunningError
| SchedulerNotRunningError
| MaxInstancesReachedError
| KeyError (msg : string)
| AttributeError (msg : string)
| JobNotFound
| Exception (msg : string).

Inductive result (A : Type) :=
| Ok (a : A)
| Raise (e : exn).
Arguments Ok {A} a.
Arguments Raise {A} e.

Definition raised {A} (r : result A) : option exn :=
  match r with Ok _ => None | Raise e => Some e end.

(** [l[-1:]] *)
Definition slice_last {A} (l : list A) : list A := drop (length l - 1)%nat l.

(** [len(l)] *)
Definition len {A} (l : list A) : Z := Z.of_nat (length l).

(** The value of an [id] entry of a change set, ids being [str] or [None]. *)
Definition as_id (v : PyVal) : option string :=
  match v with VStr s => Some s | _ => None end.

(** ** Triggers and jobs ([apscheduler.job], not part of this file) *)

(** A trigger is an instance of a trigger class built from keyword
    arguments; what it computes is given by [JobAPI]. *)
Record Trigger := mkTrigger {
  trigger_class : string;
  trigger_kwargs : dict
}.

(** The [trigger] argument of [add_job]: a plugin name or an instance. *)
Inductive TriggerArg :=
| TriggerName (plugin : string)
| TriggerInstance (tr : Trigger).

Module Job.
(** The fields of §3 of the specification; [id = None] until a store
    assigns one, [misfire_grace_time = None] is the unlimited tolerance. *)
Record t := mk {
  trigger : Trigger;
  executor : string;
  func : string;
  args : list PyVal;
  kwargs : dict;
  id : option string;
  name : option string;
  misfire_grace_time : option Z;
  coalesce : bool;
  max_runs : option Z;
  max_instances : Z;
  runs : Z;
  next_run_time : option Time
}.

Definition set_next_run_time (v : option Time) (j : t) : t :=
  mk (trigger j) (executor j) (func j) (args j) (kwargs j) (id j) (name j)
     (misfire_grace_time j) (coalesce j) (max_runs j) (max_instances j)
     (runs j) v.

Definition set_runs (v : Z) (j : t) : t :=
  mk (trigger j) (executor j) (func j) (args j) (kwargs j) (id j) (name j)
     (misfire_grace_time j) (coalesce j) (max_runs j) (max_instances j)
     v (next_run_time j).

Definition set_id (v : option string) (j : t) : t :=
  mk (trigger j) (executor j) (func j) (args j) (kwargs j) v (name j)
     (misfire_grace_time j) (coalesce j) (max_runs j) (max_instances j)
     (runs j) (next_run_time j).

Definition set_max_runs (v : option Z) (j : t) : t :=
  mk (trigger j) (executor j) (func j) (args j) (kwargs j) (id j) (name j)
     (misfire_grace_time j) (coalesce j) v (max_instances j)
     (runs j) (next_run_time j).

Definition set_name (v : option string) (j : t) : t :=
  mk (trigger j) (executor j) (func j) (args j) (kwargs j) (id j) v
     (misfire_grace_time j) (coalesce j) (max_runs j) (max_instances j)
     (runs j) (next_run_time j).

Definition set_misfire_grace_time (v : option Z) (j : t) : t :=
  mk (trigger j) (executor j) (func j) (args j) (kwargs j) (id j) (name j)
     v (coalesce j) (max_runs j) (max_instances j) (runs j) (next_run_time j).

Definition set_coalesce (v : bool) (j : t) : t :=
  mk (trigger j) (executor j) (func j) (args j) (kwargs j) (id j) (name j)
     (misfire_grace_time j) v (max_runs j) (max_instances j)
     (runs j) (next_run_time j).

Definition set_max_instances (v : Z) (j : t) : t :=
  mk (trigger j) (executor j) (func j) (args j) (kwargs j) (id j) (name j)
     (misfire_grace_time j) (coalesce j) (max_runs j) v
     (runs j) (next_run_time j).

(** The keyword arguments [job_kwargs] that [add_job] hands to [Job]. *)
Record kwargs_t := mk_kwargs {
  kw_trigger : TriggerArg;
  kw_trigger_args : dict;
  kw_executor : string;
  kw_func : string;
  kw_args : list PyVal;
  kw_kwargs : dict;
  kw_id : option string;
  kw_name : option string;
  kw_misfire_grace_time : option Z;
  kw_coalesce : bool;
  kw_max_runs : option Z;
  kw_max_instances : Z
}.

(** Modelled from the spec: the constructor of [Job], called with [job_kwargs], is in
    [apscheduler/job.py].  §3 makes a Job a value object holding the
    identity, the callable, the trigger and the run-time policies it was
    given, with [runs] and [next_run_time] as mutable state: a trigger
    named by its plugin is built from [trigger_args], every other
    argument is stored as it is, the state starts empty. *)
Definition init (kw : kwargs_t) : t :=
  mk (match kw_trigger kw with
      | TriggerName plugin => mkTrigger plugin (kw_trigger_args kw)
      | TriggerInstance tr => tr
      end)
     (kw_executor kw) (kw_func kw) (kw_args kw) (kw_kwargs kw) (kw_id kw)
     (kw_name kw) (kw_misfire_grace_time kw) (kw_coalesce kw)
     (kw_max_runs kw) (kw_max_instances kw) 0 None.
End Job.

(** [JobHandle(scheduler, jobstore, job)]; the scheduler is the receiver. *)
Record JobHandle := mkJobHandle {
  handle_jobstore : string;
  handle_job : Job.t
}.

(** The methods of [Job] and of its trigger that the scheduler calls.
    [get_next_fire_time] and [get_run_times] are taken as they are when they
    return: what the scheduler does when one of them raises is not
    modelled, and no statement below is about it. *)
Class JobAPI := {
  (** [trigger.get_next_fire_time(start)] *)
  get_next_fire_time : Trigger -> Time -> option Time;
  (** [job.get_run_times(now)] *)
  get_run_times : Job.t -> Time -> list Time;
  (** [job.modify(changes)]: the job as it is afterwards, and the outcome *)
  modify : Job.t -> dict -> Job.t * result unit;
  (** [job.validate_changes(changes)] *)
  validate_changes : Job.t -> dict -> result dict
}.

(** ** Job stores and executors *)

(** The store contract (§4.3): every method takes the store object to the
    object afterwards and an outcome. *)
Class JobStore (S : Type) := {
  store_get_pending_jobs : S -> Time -> S * result (list Job.t * option Time);
  store_lookup_job : S -> option string -> S * result Job.t;
  store_modify_job : S -> option string -> dict -> S * result unit;
  store_remove_job : S -> option string -> S * result unit;
  (** returns the job as stored, with the id the store gave it *)
  store_add_job : S -> Job.t -> S * result Job.t;
  store_get_all_jobs : S -> S * result (list Job.t);
  store_close : S -> S * result unit;
  (** [MemoryJobStore()] *)
  create_default_jobstore : S
}.

(** The executor contract (§4.4). *)
Class Executor (E : Type) := {
  executor_start : E -> E * result unit;
  executor_shutdown : E -> bool -> E * result unit;
  executor_submit_job : E -> Job.t -> list Time -> E * result unit;
  (** [PoolExecutor('thread')] *)
  create_default_executor : E
}.

(** ** Events, log records and the trace *)

Inductive EventCode :=
| EVENT_SCHEDULER_START
| EVENT_SCHEDULER_SHUTDOWN
| EVENT_JOBSTORE_ADDED
| EVENT_JOBSTORE_REMOVED
| EVENT_JOBSTORE_JOB_ADDED
| EVENT_JOBSTORE_JOB_MODIFIED
| EVENT_JOBSTORE_JOB_REMOVED.

Inductive Event :=
| SchedulerEvent (code : EventCode)
| JobStoreEvent (code : EventCode) (alias : string) (job : option (option string)).

Inductive LogLevel := DEBUG | INFO | WARNING | ERROR.

Inductive StoreOp :=
| get_pending_jobs_call (now : Time)
| lookup_job_call (job_id : option string)
| modify_job_call (job_id : option string) (changes : dict)
| remove_job_call (job_id : option string)
| add_job_call (job : Job.t)
| get_all_jobs_call
| close_call.

Inductive ExecutorOp :=
| start_call
| shutdown_call (wait : bool)
| submit_job_call (job : Job.t) (run_times : list Time).

Inductive Effect :=
| Log (level : LogLevel) (msg : string)
| Notify (event : Event)
| Wakeup
| StoreCall (alias : string) (op : StoreOp) (outcome : option exn)
| ExecutorCall (alias : string) (op : ExecutorOp) (outcome : option exn).

(** ** The scheduler object *)

Section BaseScheduler.
Context {S E : Type}.

(** The attributes of [BaseScheduler] set by [__init__] and [_configure],
    the clock that [datetime.now] reads, and the trace. *)
Record BaseScheduler := mkScheduler {
  _stopped : bool;
  _executors : gmap string E;
  _jobstores : gmap string S;
  _pending_jobs : list (Job.t * string);
  misfire_grace_time : Z;
  coalesce : bool;
  timezone : TimeZone;
  clock : Time;
  trace : list Effect
}.

Definition set_stopped (v : bool) (s : BaseScheduler) : BaseScheduler :=
  mkScheduler v (_executors s) (_jobstores s) (_pending_jobs s)
    (misfire_grace_time s) (coalesce s) (timezone s) (clock s) (trace s).

Definition set_executors (v : gmap string E) (s : BaseScheduler) : BaseScheduler :=
  mkScheduler (_stopped s) v (_jobstores s) (_pending_jobs s)
    (misfire_grace_time s) (coalesce s) (timezone s) (clock s) (trace s).

Definition set_jobstores (v : gmap string S) (s : BaseScheduler) : BaseScheduler :=
  mkScheduler (_stopped s) (_executors s) v (_pending_jobs s)
    (misfire_grace_time s) (coalesce s) (timezone s) (clock s) (trace s).

Definition set_pending_jobs (v : list (Job.t * string)) (s : BaseScheduler) : BaseScheduler :=
  mkScheduler (_stopped s) (_executors s) (_jobstores s) v
    (misfire_grace_time s) (coalesce s) (timezone s) (clock s) (trace s).

Definition set_trace (v : list Effect) (s : BaseScheduler) : BaseScheduler :=
  mkScheduler (_stopped s) (_executors s) (_jobstores s) (_pending_jobs s)
    (misfire_grace_time s) (coalesce s) (timezone s) (clock s) v.

(** The clock moves on: what [datetime.now] returns from now on. *)
Definition set_clock (v : Time) (s : BaseScheduler) : BaseScheduler :=
  mkScheduler (_stopped s) (_executors s) (_jobstores s) (_pending_jobs s)
    (misfire_grace_time s) (coalesce s) (timezone s) v (trace s).

(** [BaseScheduler(gconfig)] with the defaults of [_configure]: no
    executor and no store configured, [misfire_grace_time = 1],
    [coalesce = True]. *)
Definition init (tz : TimeZone) (now : Time) : BaseScheduler :=
  mkScheduler true ∅ ∅ [] 1 true tz now [].

(** *** Methods as state transformers that may raise *)

Definition M (A : Type) : Type := BaseScheduler -> BaseScheduler * result A.

Definition ret {A} (a : A) : M A := fun s => (s, Ok a).

Definition raise {A} (e : exn) : M A := fun s => (s, Raise e).

Definition bind {A B} (m : M A) (k : A -> M B) : M B := fun s =>
  match m s with
  | (s', Ok a) => k a s'
  | (s', Raise e) => (s', Raise e)
  end.

(** [try: m  except: h] *)
Definition try_except {A} (m : M A) (h : exn -> M A) : M A := fun s =>
  match m s with
  | (s', Ok a) => (s', Ok a)
  | (s', Raise e) => h e s'
  end.

Definition emit (e : Effect) : M unit := fun s =>
  (set_trace (trace s ++ [e]) s, Ok tt).

(** [for x in l: acc = body(x, acc)] *)
Fixpoint for_each {A B} (l : list A) (body : A -> B -> M B) (acc : B) : M B :=
  match l with
  | [] => ret acc
  | x :: l' => bind (body x acc) (for_each l' body)
  end.

(** [datetime.now(self.timezone)] *)
Definition datetime_now : M Time := fun s => (s, Ok (clock s)).

(** [self.running] *)
Definition running (s : BaseScheduler) : bool := negb (_stopped s).
End BaseScheduler.

Arguments BaseScheduler : clear implicits.
Arguments M : clear implicits.

Declare Scope sched_scope.
Delimit Scope sched_scope with sched.
Notation "'let*' x ':=' m 'in' k" := (bind m (fun x => k))
  (at level 10, x name, m at level 100, k at level 200) : sched_scope.
Notation "'let*' ' p ':=' m 'in' k" := (bind m (fun x => match x with p => k end))
  (at level 10, p pattern, m at level 100, k at level 200) : sched_scope.
Notation "'run' m 'in' k" := (bind m (fun _ => k))
  (at level 10, m at level 100, k at level 200) : sched_scope.

(** The arguments of [add_job]; [None] is an argument left out. *)
Record add_job_args := mk_add_job_args {
  arg_func : string;
  arg_trigger : option TriggerArg;
  arg_args : option (list PyVal);
  arg_kwargs : option dict;
  arg_id : option string;
  arg_name : option string;
  arg_misfire_grace_time : option Z;
  arg_coalesce : option bool;
  arg_max_runs : option Z;
  arg_max_instances : Z;
  arg_jobstore : string;
  arg_executor : string;
  arg_trigger_args : dict
}.

(** [add_job(func)] with every other argument at its default. *)
Definition add_job_defaults (func : string) : add_job_args :=
  mk_add_job_args func None None None None None None None None 1
    "default" "default" ∅.

(** What [six.iteritems] can be given in [get_jobs]: the list [[jobstore]]
    or the registry [self._jobstores]. *)
Inductive iteritems_arg (S : Type) :=
| PyList (l : list string)
| PyDict (d : gmap string S).
Arguments PyList {S} l.
Arguments PyDict {S} d.

(** [six.iteritems(d)] is [iter(d.items())] ([d.iteritems()] on Python 2):
    a list has neither method. *)
Definition six_iteritems {S} (d : iteritems_arg S) : result (list (string * S)) :=
  match d with
  | PyDict d => Ok (map_to_list d)
  | PyList _ => Raise (AttributeError "'list' object has no attribute 'items'")
  end.

(** Truth value of a list and of a [str] or [None]. *)
Definition nonempty {A} (l : list A) : bool :=
  match l with [] => false | _ :: _ => true end.

Definition truthy_str (o : option string) : bool :=
  match o with
  | None => false
  | Some a => negb (String.eqb a EmptyString)
  end.

(** ** The methods of [BaseScheduler] *)

Section Methods.
Context {S E : Type} `{!JobAPI} `{!JobStore S} `{!Executor E}.
Local Open Scope sched_scope.

Local Abbreviation Sched := (BaseScheduler S E).
Local Abbreviation M := (M S E).

(** [self.logger.debug/info/warning/error]; [logger.exception] logs at
    level [ERROR]. *)
Definition log (level : LogLevel) (msg : string) : M unit := emit (Log level msg).

(** [_notify_listeners(event)] calls the listeners whose mask selects the
    event and swallows what they raise; the model records the event. *)
Definition _notify_listeners (event : Event) : M unit := emit (Notify event).

(** The abstract [_wakeup()]. *)
Definition _wakeup : M unit := emit Wakeup.

(** [try: m  except: ...] with the outcome as a value. *)
Definition attempt {A} (m : M A) : M (result A) := fun s =>
  let '(s', r) := m s in (s', Ok r).

(** A method call on the store object registered under [alias]
    ([self._jobstores[alias].method(...)]): the object is updated in the
    registry and the call is traced; [KeyError] if no store has that
    alias. *)
Definition call_jobstore {A} (alias : string) (op : StoreOp)
    (method : S -> S * result A) : M A := fun s =>
  match _jobstores s !! alias with
  | None => (s, Raise (KeyError "No such job store: %s"))
  | Some store =>
      let '(store', r) := method store in
      (set_trace (trace s ++ [StoreCall alias op (raised r)])
         (set_jobstores (<[alias := store']> (_jobstores s)) s), r)
  end.

(** [_lookup_executor(executor)] *)
Definition _lookup_executor (executor : string) : M E := fun s =>
  match _executors s !! executor with
  | Some e => (s, Ok e)
  | None => (s, Raise (KeyError "No such executor: %s"))
  end.

(** A method call on the executor object registered under [alias]. *)
Definition call_executor {A} (alias : string) (op : ExecutorOp)
    (method : E -> E * result A) : M A :=
  let* executor := _lookup_executor alias in
  fun s =>
    let '(executor', r) := method executor in
    (set_trace (trace s ++ [ExecutorCall alias op (raised r)])
       (set_executors (<[alias := executor']> (_executors s)) s), r).

Definition add_executor (executor : E) (alias : string) : M unit := fun s =>
  match _executors s !! alias with
  | Some _ =>
      (s, Raise (KeyError "This scheduler already has an executor by the alias of '%s'"))
  | None =>
      let s1 := set_executors (<[alias := executor]> (_executors s)) s in
      if running s1
      then call_executor alias start_call executor_start s1
      else (s1, Ok tt)
  end.

Definition add_jobstore (jobstore : S) (alias : string) (quiet : bool) : M unit :=
  let* _ := (fun s =>
    match _jobstores s !! alias with
    | Some _ => (s, Raise (KeyError "Alias '%s' is already in use"))
    | None => (set_jobstores (<[alias := jobstore]> (_jobstores s)) s, Ok tt)
    end) in
  run _notify_listeners (JobStoreEvent EVENT_JOBSTORE_ADDED alias None) in
  fun s => if negb quiet && running s then _wakeup s else (s, Ok tt).

(** [_real_add_job(job, jobstore, wakeup)]; the result is the job with the
    [next_run_time] assigned here and the id the store gave it. *)
Definition _real_add_job (job : Job.t) (jobstore : string) (wakeup : bool) : M Job.t :=
  let* now := datetime_now in
  let job := Job.set_next_run_time (get_next_fire_time (Job.trigger job) now) job in
  let* job := (fun s =>
    match _jobstores s !! jobstore with
    | None => (s, Raise (KeyError "No such job store: %s"))
    | Some _ => call_jobstore jobstore (add_job_call job)
                  (fun store => store_add_job store job) s
    end) in
  run _notify_listeners
        (JobStoreEvent EVENT_JOBSTORE_JOB_ADDED jobstore (Some (Job.id job))) in
  run log INFO "Added job '%s' to job store '%s'" in
  run (if wakeup then _wakeup else ret tt) in
  ret job.

(** [start()].  The list of pending jobs is emptied only when every job
    has been stored.  Jobs are values here: what [_real_add_job] and the
    store do to a job object (its [next_run_time], an id given by the store)
    shows on the job handed on, not on the entry of the pending list, which
    in Python is the same object.  After a [start] that returns the list is
    empty; after one that raises, only the number of entries and their store
    aliases are as in Python. *)
Definition start : M unit :=
  let* _ := (fun s => if running s then (s, Raise SchedulerAlreadyRunningError)
                      else (s, Ok tt)) in
  let* _ := (fun s => match _executors s !! "default" with
                      | None => add_executor create_default_executor "default" s
                      | Some _ => (s, Ok tt)
                      end) in
  let* _ := (fun s => match _jobstores s !! "default" with
                      | None => add_jobstore create_default_jobstore "default" true s
                      | Some _ => (s, Ok tt)
                      end) in
  let* _ := (fun s => for_each (map_to_list (_executors s)).*1
                        (fun alias _ => call_executor alias start_call executor_start)
                        tt s) in
  let* _ := (fun s => for_each (_pending_jobs s)
                        (fun '(job, jobstore) _ =>
                           run _real_add_job job jobstore false in ret tt)
                        tt s) in
  let* _ := (fun s => (set_pending_jobs [] s, Ok tt)) in
  let* _ := (fun s => (set_stopped false s, Ok tt)) in
  run log INFO "Scheduler started" in
  _notify_listeners (SchedulerEvent EVENT_SCHEDULER_START).

(** [shutdown(wait=True)] *)
Definition shutdown (wait : bool) : M unit :=
  let* _ := (fun s => if running s then (s, Ok tt)
                      else (s, Raise SchedulerNotRunningError)) in
  let* _ := (fun s => (set_stopped true s, Ok tt)) in
  let* _ := (fun s => for_each (map_to_list (_executors s)).*1
                        (fun alias _ => call_executor alias (shutdown_call wait)
                                          (fun e => executor_shutdown e wait))
                        tt s) in
  let* _ := (fun s => for_each (map_to_list (_jobstores s)).*1
                        (fun alias _ => call_jobstore alias close_call store_close)
                        tt s) in
  run log INFO "Scheduler has been shut down" in
  _notify_listeners (SchedulerEvent EVENT_SCHEDULER_SHUTDOWN).

(** [add_job(func, trigger, ..., **trigger_args)]; the result is the
    handle [JobHandle(self, jobstore, job)]. *)
Definition job_kwargs (a : add_job_args) (s : Sched) : Job.kwargs_t :=
  (* If no trigger was specified, assume that the job should be run now *)
  let '(trigger, trigger_args, misfire_grace_time') :=
    match arg_trigger a with
    | None => (TriggerName "date",
               <["run_date" := VDateTime (clock s)]> (arg_trigger_args a),
               None)
    | Some trigger => (trigger, arg_trigger_args a, arg_misfire_grace_time a)
    end in
  (* trigger_args.setdefault('timezone', self.timezone) *)
  let trigger_args :=
    match trigger_args !! "timezone" with
    | Some _ => trigger_args
    | None => <["timezone" := VTz (timezone s)]> trigger_args
    end in
  Job.mk_kwargs trigger trigger_args (arg_executor a) (arg_func a)
    (match arg_args a with Some args => args | None => [] end)
    (match arg_kwargs a with Some kwargs => kwargs | None => ∅ end)
    (arg_id a) (arg_name a)
    (Some (match misfire_grace_time' with
           | Some grace => grace
           | None => misfire_grace_time s
           end))
    (match arg_coalesce a with Some c => c | None => coalesce s end)
    (arg_max_runs a) (arg_max_instances a).

Definition add_job (a : add_job_args) : M JobHandle := fun s =>
  let job := Job.init (job_kwargs a s) in
  let jobstore := arg_jobstore a in
  (* Don't really add jobs to job stores before the scheduler is up and running *)
  if negb (running s) then
    (run (fun s => (set_pending_jobs (_pending_jobs s ++ [(job, jobstore)]) s, Ok tt)) in
     run log INFO "Adding job tentatively -- it will be properly scheduled when the scheduler starts" in
     ret (mkJobHandle jobstore job)) s
  else
    (let* job := _real_add_job job jobstore true in
     ret (mkJobHandle jobstore job)) s.

(** The first pending entry whose job has the given id, with its index:
    what [for job, store in self._pending_jobs: if job.id == job_id]
    stops at. *)
Definition find_pending (job_id : option string) (pending : list (Job.t * string))
    : option (nat * (Job.t * string)) :=
  list_find (fun p => Job.id p.1 = job_id) pending.

(** [modify_job(job_id, jobstore='default', **changes)] *)
Definition modify_job (job_id : option string) (jobstore : string) (changes : dict)
    : M unit := fun s =>
  (* Check if the job is among the pending jobs *)
  match find_pending job_id (_pending_jobs s) with
  | Some (i, (job, store)) =>
      let '(job', r) := modify job changes in
      (set_pending_jobs (<[i := (job', store)]> (_pending_jobs s)) s, r)
  | None =>
      (let* _ := (fun s => match _jobstores s !! jobstore with
                           | None => (s, Raise (KeyError jobstore))
                           | Some _ => (s, Ok tt)
                           end) in
       let lookup_id := match changes !! "id" with
                        | Some v => as_id v
                        | None => job_id
                        end in
       let* job := call_jobstore jobstore (lookup_job_call lookup_id)
                     (fun store => store_lookup_job store lookup_id) in
       let* changes := (fun s => (s, validate_changes job changes)) in
       run call_jobstore jobstore (modify_job_call job_id changes)
             (fun store => store_modify_job store job_id changes) in
       run _notify_listeners
             (JobStoreEvent EVENT_JOBSTORE_JOB_MODIFIED jobstore (Some job_id)) in
       (* Wake up the scheduler since the job's next run time may have been changed *)
       _wakeup) s
  end.

(** [get_jobs(jobstore=None, pending=None)]; [pending] is [Some true],
    [Some false] or anything else ([None]). *)
Definition get_jobs (jobstore : option string) (pending : option bool)
    : M (list JobHandle) := fun s =>
  let jobs : list JobHandle :=
    if bool_decide (pending ≠ Some false) then
      omap (fun '(job, alias) =>
              if bool_decide (jobstore = None \/ Some alias = jobstore)
              then Some (mkJobHandle alias job) else None)
           (_pending_jobs s)
    else [] in
  if bool_decide (pending ≠ Some true) then
    let jobstores :=
      match jobstore with
      | Some alias => if truthy_str jobstore then PyList [alias]
                      else PyDict (_jobstores s)
      | None => PyDict (_jobstores s)
      end in
    (let* items := (fun s => (s, six_iteritems jobstores)) in
     for_each items
       (fun '(alias, _) jobs =>
          let* stored := call_jobstore alias get_all_jobs_call store_get_all_jobs in
          ret (jobs ++ map (mkJobHandle alias) stored))
       jobs) s
  else (s, Ok jobs).

(** [remove_job(job_id, jobstore='default')] *)
Definition remove_job (job_id : option string) (jobstore : string) : M unit := fun s =>
  (* Check if the job is among the pending jobs *)
  match find_pending job_id (_pending_jobs s) with
  | Some (i, _) => (set_pending_jobs (delete i (_pending_jobs s)) s, Ok tt)
  | None =>
      (let* _ := (fun s => match _jobstores s !! jobstore with
                           | None => (s, Raise (KeyError jobstore))
                           | Some _ => (s, Ok tt)
                           end) in
       run call_jobstore jobstore (remove_job_call job_id)
             (fun store => store_remove_job store job_id) in
       (* Notify listeners that a job has been removed *)
       run _notify_listeners
             (JobStoreEvent EVENT_JOBSTORE_JOB_REMOVED jobstore (Some job_id)) in
       log INFO "Removed job %s") s
  end.

(** *** The firing loop *)

(** [job.max_runs is None or job_runs < job.max_runs] *)
Definition runs_left (job : Job.t) (job_runs : Z) : bool :=
  match Job.max_runs job with
  | None => true
  | Some max_runs => job_runs <? max_runs
  end.

(** [run_times[-1:] if run_times and job.coalesce else run_times] *)
Definition coalesced (job : Job.t) (run_times : list Time) : list Time :=
  if nonempty run_times && Job.coalesce job then slice_last run_times else run_times.

(** [min(next_wakeup_time, t) if next_wakeup_time else t] *)
Definition earlier (next_wakeup_time : option Time) (t : Time) : Time :=
  match next_wakeup_time with
  | Some w => Z.min w t
  | None => t
  end.

(** The statements after a successful [submit_job]: update the job if it
    has a next execution time and the number of runs has not reached
    maximum, otherwise remove it from the job store. *)
Definition update_or_remove (now : Time) (jobstore_alias : string) (job : Job.t)
    (run_times : list Time) (next_wakeup_time : option Time) : M (option Time) :=
  let job_runs := Job.runs job + len run_times in
  let job_next_run := get_next_fire_time (Job.trigger job) (now + 1) in
  match job_next_run with
  | Some next_run =>
      if runs_left job job_runs then
        let changes : dict :=
          {[ "next_run_time" := VDateTime next_run; "runs" := VInt job_runs ]} in
        run call_jobstore jobstore_alias (modify_job_call (Job.id job) changes)
              (fun store => store_modify_job store (Job.id job) changes) in
        ret (Some (earlier next_wakeup_time next_run))
      else
        run remove_job (Job.id job) jobstore_alias in
        ret next_wakeup_time
  | None =>
      run remove_job (Job.id job) jobstore_alias in
      ret next_wakeup_time
  end.

(** The body of [for job in jobs]; a [continue] returns the wakeup time
    unchanged. *)
Definition process_job (now : Time) (jobstore_alias : string) (job : Job.t)
    (next_wakeup_time : option Time) : M (option Time) :=
  (* Look up the job's executor *)
  let* executor := attempt (_lookup_executor (Job.executor job)) in
  match executor with
  | Raise _ =>
      run log ERROR "Executor lookup failed for job '%s': %s" in
      ret next_wakeup_time
  | Ok _ =>
      let run_times := get_run_times job now in
      let run_times := coalesced job run_times in
      if nonempty run_times then
        let* submitted :=
          attempt (call_executor (Job.executor job) (submit_job_call job run_times)
                     (fun executor => executor_submit_job executor job run_times)) in
        match submitted with
        | Raise MaxInstancesReachedError =>
            run log WARNING
                  "Execution of job '%s' skipped: maximum number of running instances reached (%d)" in
            ret next_wakeup_time
        | Raise _ =>
            run log ERROR "Error submitting job '%s' to executor '%s'" in
            ret next_wakeup_time
        | Ok _ =>
            update_or_remove now jobstore_alias job run_times next_wakeup_time
        end
      else ret next_wakeup_time
  end.

(** The body of [for jobstore_alias, jobstore in six.iteritems(self._jobstores)]. *)
Definition process_jobstore (now : Time) (jobstore_alias : string)
    (next_wakeup_time : option Time) : M (option Time) :=
  let* '(jobs, jobstore_next_wakeup_time) :=
    call_jobstore jobstore_alias (get_pending_jobs_call now)
      (fun store => store_get_pending_jobs store now) in
  let next_wakeup_time :=
    match next_wakeup_time with
    | None => jobstore_next_wakeup_time
    | Some w =>
        match jobstore_next_wakeup_time with
        | Some t => Some (Z.min w t)
        | None => Some w
        end
    end in
  for_each jobs (process_job now jobstore_alias) next_wakeup_time.

(** [_process_jobs()]; the result is [wait_seconds], kept as the exact
    number of microseconds that [timedelta_seconds] turns into seconds. *)
Definition _process_jobs : M (option Z) :=
  run log DEBUG "Looking for jobs to run" in
  let* now := datetime_now in
  let* next_wakeup_time :=
    (fun s => for_each (map_to_list (_jobstores s)).*1 (process_jobstore now) None s) in
  (* Determine the delay until this method should be called again *)
  match next_wakeup_time with
  | Some t =>
      let wait_seconds := t - now in
      run log DEBUG "now = %s, next_wakeup_time = %s" in
      run log DEBUG "Next wakeup is due at %s (in %f seconds)" in
      ret (Some wait_seconds)
  | None =>
      run log DEBUG "No jobs; waiting until a job is added" in
      ret None
  end.
End Methods.

(** ** Collaborators as the specification describes them

    The classes behind [JobAPI], [JobStore] and [Executor] are not in this
    file; the instances below follow the specification and serve as the
    concrete schedulers on which the general statements are exercised. *)

Definition second : Z := 1000000.

(** Modelled from the spec: the trigger classes are outside this file.  §1
    names the one-shot date trigger and the interval trigger, and the
    glossary makes a trigger a pure function from an instant to the next
    firing instant: a [date] trigger fires once, at [run_date]; an
    [interval] trigger fires at [start_date] and every [seconds] seconds
    after it; a class that is not known never fires. *)
Definition spec_get_next_fire_time (tr : Trigger) (start : Time) : option Time :=
  if String.eqb (trigger_class tr) "date" then
    match trigger_kwargs tr !! "run_date" with
    | Some (VDateTime run_date) => if start <=? run_date then Some run_date else None
    | _ => None
    end
  else if String.eqb (trigger_class tr) "interval" then
    match trigger_kwargs tr !! "start_date", trigger_kwargs tr !! "seconds" with
    | Some (VDateTime start_date), Some (VInt n) =>
        if n <=? 0 then None
        else if start <=? start_date then Some start_date
        else
          let step := n * second in
          Some (start_date + ((start - start_date + step - 1) / step) * step)
    | _, _ => None
    end
  else None.

(** The fire times [t, next(t + 1), ...] that are not after [now]. *)
Fixpoint fire_times_until (fuel : nat) (tr : Trigger) (t now : Time) : list Time :=
  match fuel with
  | O => []
  | Datatypes.S fuel =>
      if t <=? now then
        t :: match spec_get_next_fire_time tr (t + 1) with
             | Some t' => fire_times_until fuel tr t' now
             | None => []
             end
      else []
  end.

(** A run time older than [now - misfire_grace_time] is a misfire. *)
Definition within_grace (job : Job.t) (now t : Time) : bool :=
  match Job.misfire_grace_time job with
  | None => true
  | Some grace => now - grace * second <=? t
  end.

(** Modelled from the spec: [Job.get_run_times] is in [apscheduler/job.py].
    §4.1 step 3b: "every trigger fire time in [next_run_time, T] still
    within misfire_grace_time of T".  Successive fire times are at least a
    microsecond apart, so [T - next_run_time + 1] steps reach [T]. *)
Definition spec_get_run_times (job : Job.t) (now : Time) : list Time :=
  match Job.next_run_time job with
  | None => []
  | Some t0 =>
      List.filter (within_grace job now)
        (fire_times_until (Z.to_nat (now - t0 + 1)) (Job.trigger job) t0 now)
  end.

(** The change of one attribute, if the key names an attribute that may be
    changed and the value fits it (§3). *)
Definition apply_change (key : string) (v : PyVal) (job : Job.t) : option Job.t :=
  if String.eqb key "id" then
    match v with VStr s => Some (Job.set_id (Some s) job) | _ => None end
  else if String.eqb key "max_runs" then
    match v with
    | VNone => Some (Job.set_max_runs None job)
    | VInt n => if 0 <? n then Some (Job.set_max_runs (Some n) job) else None
    | _ => None
    end
  else if String.eqb key "runs" then
    match v with
    | VInt n => if 0 <=? n then Some (Job.set_runs n job) else None
    | _ => None
    end
  else if String.eqb key "next_run_time" then
    match v with
    | VNone => Some (Job.set_next_run_time None job)
    | VDateTime t => Some (Job.set_next_run_time (Some t) job)
    | _ => None
    end
  else if String.eqb key "name" then
    match v with VStr s => Some (Job.set_name (Some s) job) | _ => None end
  else if String.eqb key "misfire_grace_time" then
    match v with
    | VNone => Some (Job.set_misfire_grace_time None job)
    | VInt n => if 0 <=? n then Some (Job.set_misfire_grace_time (Some n) job) else None
    | _ => None
    end
  else if String.eqb key "coalesce" then
    match v with VBool b => Some (Job.set_coalesce b job) | _ => None end
  else if String.eqb key "max_instances" then
    match v with
    | VInt n => if 1 <=? n then Some (Job.set_max_instances n job) else None
    | _ => None
    end
  else None.

Definition apply_changes (changes : list (string * PyVal)) (job : Job.t) : option Job.t :=
  foldr (fun kv acc => match acc with
                       | Some job => apply_change kv.1 kv.2 job
                       | None => None
                       end) (Some job) changes.

(** Modelled from the spec: [Job.validate_changes] and [Job.modify] are in
    [apscheduler/job.py].  §4.1: the Job validates the proposed changes,
    "rejecting unknown or inconsistent keys", and [modify] applies them to
    the in-memory Job. *)
Definition spec_validate_changes (job : Job.t) (changes : dict) : result dict :=
  match apply_changes (map_to_list changes) job with
  | Some _ => Ok changes
  | None => Raise (Exception "invalid change")
  end.

(** Modelled from the spec: [Job.modify] applies the changes that
    [validate_changes] accepts (§4.1) and raises on the others, leaving the
    job as it was. *)
Definition spec_modify (job : Job.t) (changes : dict) : Job.t * result unit :=
  match apply_changes (map_to_list changes) job with
  | Some job' => (job', Ok tt)
  | None => (job, Raise (Exception "invalid change"))
  end.

(** The job interface as the specification describes it. *)
Definition SpecJob : JobAPI :=
  Build_JobAPI spec_get_next_fire_time spec_get_run_times spec_modify
    spec_validate_changes.

(** Modelled from the spec: [MemoryJobStore] is in
    [apscheduler/jobstores/memory.py].  §4.3: a set of jobs keyed by id;
    [add_job] assigns an id if absent and fails if the id collides;
    [lookup_job], [modify_job] and [remove_job] fail with [JobNotFound] when
    the id is absent; the due scan returns the jobs with
    [next_run_time <= now] and the earliest later [next_run_time]. *)
Record MemoryJobStore := mkMemoryJobStore { mem_jobs : list Job.t }.

Definition has_id (job_id : option string) (job : Job.t) : bool :=
  bool_decide (Job.id job = job_id).

Definition is_due (now : Time) (job : Job.t) : bool :=
  match Job.next_run_time job with
  | Some t => t <=? now
  | None => false
  end.

Definition earliest_after (now : Time) (jobs : list Job.t) : option Time :=
  foldr (fun job acc =>
           match Job.next_run_time job with
           | Some t => if now <? t
                       then Some (match acc with Some a => Z.min t a | None => t end)
                       else acc
           | None => acc
           end) None jobs.

(** Modelled from the spec: the due scan (§4.1 step 1) returns every job
    with [next_run_time <= now] and the earliest [next_run_time] after [now]. *)
Definition mem_get_pending_jobs (st : MemoryJobStore) (now : Time)
    : MemoryJobStore * result (list Job.t * option Time) :=
  (st, Ok (List.filter (is_due now) (mem_jobs st), earliest_after now (mem_jobs st))).

(** Modelled from the spec: §4.3, "fetch or fail with JobNotFound". *)
Definition mem_lookup_job (st : MemoryJobStore) (job_id : option string)
    : MemoryJobStore * result Job.t :=
  match List.find (has_id job_id) (mem_jobs st) with
  | Some job => (st, Ok job)
  | None => (st, Raise JobNotFound)
  end.

(** Modelled from the spec: §4.3, "partial update of an existing job". *)
Definition mem_modify_job (st : MemoryJobStore) (job_id : option string) (changes : dict)
    : MemoryJobStore * result unit :=
  match List.find (has_id job_id) (mem_jobs st) with
  | Some job =>
      match apply_changes (map_to_list changes) job with
      | Some job' =>
          (mkMemoryJobStore
             (map (fun j => if has_id job_id j then job' else j) (mem_jobs st)),
           Ok tt)
      | None => (st, Raise (Exception "invalid change"))
      end
  | None => (st, Raise JobNotFound)
  end.

(** Modelled from the spec: §4.3, "delete or fail". *)
Definition mem_remove_job (st : MemoryJobStore) (job_id : option string)
    : MemoryJobStore * result unit :=
  match List.find (has_id job_id) (mem_jobs st) with
  | Some _ =>
      (mkMemoryJobStore (List.filter (fun j => negb (has_id job_id j)) (mem_jobs st)),
       Ok tt)
  | None => (st, Raise JobNotFound)
  end.

(** Modelled from the spec: §4.3, "insert; assign id if absent; fails if id
    collides". *)
Definition mem_add_job (st : MemoryJobStore) (job : Job.t)
    : MemoryJobStore * result Job.t :=
  let job :=
    match Job.id job with
    | Some _ => job
    | None => Job.set_id (Some ("job" +:+ pretty (length (mem_jobs st)))) job
    end in
  match List.find (has_id (Job.id job)) (mem_jobs st) with
  | Some _ => (st, Raise (KeyError "Job identifier conflicts with an existing job"))
  | None => (mkMemoryJobStore (mem_jobs st ++ [job]), Ok job)
  end.

(** The in-memory store; [get_all_jobs] lists the jobs, [close] does
    nothing. *)
Definition MemoryStore : JobStore MemoryJobStore :=
  Build_JobStore MemoryJobStore mem_get_pending_jobs mem_lookup_job mem_modify_job
    mem_remove_job mem_add_job (fun st => (st, Ok (mem_jobs st)))
    (fun st => (st, Ok tt)) (mkMemoryJobStore []).

(** A store backend that is out of order: every call raises. *)
Inductive BrokenJobStore := broken_jobstore.

Definition unavailable {A} : BrokenJobStore * result A :=
  (broken_jobstore, Raise (Exception "store unavailable")).

Definition BrokenStore : JobStore BrokenJobStore :=
  Build_JobStore BrokenJobStore (fun _ _ => unavailable) (fun _ _ => unavailable)
    (fun _ _ _ => unavailable) (fun _ _ => unavailable) (fun _ _ => unavailable)
    (fun _ => unavailable) (fun _ => unavailable) broken_jobstore.

(** Modelled from the spec: [PoolExecutor] is in
    [apscheduler/executors/pool.py].  §4.4: [submit] "fails synchronously
    with MaxInstancesReached if the job already has max_instances in
    flight"; the executor keeps the ids of the jobs it has in flight, one
    entry for each accepted submission. *)
Record PoolExecutor := mkPoolExecutor { in_flight : list (option string) }.

Definition instances (ex : PoolExecutor) (job_id : option string) : Z :=
  len (List.filter (fun i => bool_decide (i = job_id)) (in_flight ex)).

(** Modelled from the spec: §4.4, the check of [max_instances] in [submit]. *)
Definition pool_submit_job (ex : PoolExecutor) (job : Job.t) (run_times : list Time)
    : PoolExecutor * result unit :=
  if Job.max_instances job <=? instances ex (Job.id job)
  then (ex, Raise MaxInstancesReachedError)
  else (mkPoolExecutor (Job.id job :: in_flight ex), Ok tt).

(** The pool executor; [start] and [shutdown] do nothing to the model. *)
Definition Pool : Executor PoolExecutor :=
  Build_Executor PoolExecutor (fun ex => (ex, Ok tt)) (fun ex _ => (ex, Ok tt))
    pool_submit_job (mkPoolExecutor []).

(** An executor that is out of order: [submit_job] raises. *)
Inductive BrokenExecutor := broken_executor.

Definition BrokenPool : Executor BrokenExecutor :=
  Build_Executor BrokenExecutor (fun ex => (ex, Ok tt)) (fun ex _ => (ex, Ok tt))
    (fun ex _ _ => (ex, Raise (Exception "executor unavailable"))) broken_executor.

(** ** Schedulers to run the model on *)

Section Scenarios.
#[local] Existing Instances SpecJob MemoryStore Pool BrokenStore.

(** The scheduler after the method call [m]. *)
Definition exec {S E A} (m : M S E A) (s : BaseScheduler S E) : BaseScheduler S E :=
  (m s).1.

(** A scheduler with nothing configured, at time [0]. *)
Definition fresh : BaseScheduler MemoryJobStore PoolExecutor := init "UTC" 0.

(** [add_job('tick', 'interval', id='tick', misfire_grace_time=10,
    coalesce=..., max_runs=..., start_date=0, seconds=1)] *)
Definition every_second (max_runs : option Z) (coalesce : bool) : add_job_args :=
  mk_add_job_args "tick" (Some (TriggerName "interval")) None None (Some "tick") None
    (Some 10) (Some coalesce) max_runs 1 "default" "default"
    {[ "start_date" := VDateTime 0; "seconds" := VInt 1 ]}.

(** The job is added, the scheduler is started at time [0], and the clock
    has moved on to [now]. *)
Definition ticking (max_runs : option Z) (coalesce : bool) (now : Time)
    : BaseScheduler MemoryJobStore PoolExecutor :=
  set_clock now (exec start (exec (add_job (every_second max_runs coalesce)) fresh)).

(** The jobs held by the store registered under [alias]. *)
Definition stored_jobs (s : BaseScheduler MemoryJobStore PoolExecutor) (alias : string)
    : list Job.t :=
  match _jobstores s !! alias with
  | Some st => mem_jobs st
  | None => []
  end.

(** The job [tick] as the default store of [s] holds it, or as [add_job]
    builds it while nothing is stored. *)
Definition tick (s : BaseScheduler MemoryJobStore PoolExecutor) : Job.t :=
  match stored_jobs s "default" with
  | job :: _ => job
  | [] => Job.init (job_kwargs (every_second None false) s)
  end.

(** A scheduler started and shut down again. *)
Definition shut_down : BaseScheduler MemoryJobStore PoolExecutor :=
  exec (shutdown true) (exec start fresh).

(** A scheduler whose only store is out of order, started. *)
Definition on_broken_store : BaseScheduler BrokenJobStore PoolExecutor :=
  exec start (exec (add_jobstore broken_jobstore "default" true) (init "UTC" 0)).

(** A stopped scheduler with the job [tick] pending for the store
    [default]. *)
Definition with_pending : BaseScheduler MemoryJobStore PoolExecutor :=
  exec (add_job (every_second None false)) fresh.
End Scenarios.

(** ** Reading the trace *)

(** The calls of [executor.submit_job] in a trace: executor alias, job and
    run times of each. *)
Definition submissions (tr : list Effect) : list (string * Job.t * list Time) :=
  omap (fun e => match e with
                 | ExecutorCall alias (submit_job_call job run_times) _ =>
                     Some (alias, job, run_times)
                 | _ => None
                 end) tr.

(** The number of run times submitted with success for the job [job_id]. *)
Definition submitted_run_times (job_id : option string) (tr : list Effect) : Z :=
  foldr (fun e n =>
           match e with
           | ExecutorCall _ (submit_job_call job run_times) None =>
               if bool_decide (Job.id job = job_id) then len run_times + n else n
           | _ => n
           end) 0 tr.

(** The events handed to [_notify_listeners]. *)
Definition events (tr : list Effect) : list Event :=
  omap (fun e => match e with Notify ev => Some ev | _ => None end) tr.

Section Outcomes.
Context {S E : Type} `{!Executor E}.

(** The scheduler after [executor.submit_job(job, run_times)] on the
    executor [ex] registered for the job. *)
Definition after_submit (s : BaseScheduler S E) (job : Job.t) (run_times : list Time)
    (ex : E) : BaseScheduler S E :=
  set_trace
    (trace s ++ [ExecutorCall (Job.executor job) (submit_job_call job run_times)
                   (raised (executor_submit_job ex job run_times).2)])
    (set_executors
       (<[Job.executor job := (executor_submit_job ex job run_times).1]> (_executors s)) s).

(** [s'] is as stopped or running as [s], and has no pending job if [s] has
    none. *)
Definition quiet (s s' : BaseScheduler S E) : Prop :=
  _stopped s' = _stopped s /\ (_pending_jobs s = [] -> _pending_jobs s' = []).

(** A method that is quiet from every state. *)
Definition quietM {A} (m : M S E A) : Prop := forall s, quiet s (m s).1.
End Outcomes.

Section Reachable.
Context {S E : Type} `{!JobAPI} `{!JobStore S} `{!Executor E}.

(** The schedulers that calls of the methods lead to, from a scheduler that
    was just built and configured: stopped, with nothing pending.  Time may
    pass between two calls. *)
Inductive reachable : BaseScheduler S E -> Prop :=
| reach_configured s :
    _stopped s = true -> _pending_jobs s = [] -> reachable s
| reach_clock s now : reachable s -> reachable (set_clock now s)
| reach_start s : reachable s -> reachable (start s).1
| reach_shutdown s wait : reachable s -> reachable (shutdown wait s).1
| reach_add_executor s executor alias :
    reachable s -> reachable (add_executor executor alias s).1
| reach_add_jobstore s jobstore alias quiet :
    reachable s -> reachable (add_jobstore jobstore alias quiet s).1
| reach_add_job s a : reachable s -> reachable (add_job a s).1
| reach_modify_job s job_id jobstore changes :
    reachable s -> reachable (modify_job job_id jobstore changes s).1
| reach_remove_job s job_id jobstore :
    reachable s -> reachable (remove_job job_id jobstore s).1
| reach_get_jobs s jobstore pending :
    reachable s -> reachable (get_jobs jobstore pending s).1
| reach_process_jobs s : reachable s -> reachable (_process_jobs s).1.
End Reachable.


(** ** The remaining methods *)

Section MoreMethods.
Context {S E : Type} `{!JobAPI} `{!JobStore S} `{!Executor E}.
Local Open Scope sched_scope.

(** [remove_jobstore(alias, close=True)].  [self._jobstores.pop(alias)]
    raises [KeyError] for an alias that is not registered; a store object is
    true, so [if not jobstore] lets it pass.  The store has left the
    registry when it is closed. *)
Definition remove_jobstore (alias : string) (close : bool) : M S E unit := fun s =>
  match _jobstores s !! alias with
  | None => (s, Raise (KeyError alias))
  | Some jobstore =>
      (run (fun s => (set_jobstores (delete alias (_jobstores s)) s, Ok tt)) in
       (* Close the job store if requested *)
       run (if close
            then fun s =>
                   let '(_, r) := store_close jobstore in
                   (set_trace (trace s ++ [StoreCall alias close_call (raised r)]) s, r)
            else ret tt) in
       (* Notify listeners that a job store has been removed *)
       _notify_listeners (JobStoreEvent EVENT_JOBSTORE_REMOVED alias None)) s
  end.

(** [get_job(job_id, jobstore='default')] *)
Definition get_job (job_id : option string) (jobstore : string) : M S E JobHandle :=
  fun s =>
  match _jobstores s !! jobstore with
  | None => (s, Raise (KeyError jobstore))
  | Some _ =>
      (let* job := call_jobstore jobstore (lookup_job_call job_id)
                     (fun store => store_lookup_job store job_id) in
       ret (mkJobHandle jobstore job)) s
  end.

(** What [print_jobs] writes to [out], line by line. *)
Inductive Line :=
| PendingJobsHeading
| JobstoreHeading (alias : string)
| JobLine (job : JobHandle)
| NoScheduledJobs.

(** [for alias, store in six.iteritems(self._jobstores)] of [print_jobs]:
    the scheduler and the lines written so far go in, and come out also when
    the loop ends with an exception. *)
Fixpoint print_jobstores (aliases : list string) (jobstore : option string)
    (out : list Line) (s : BaseScheduler S E)
    : BaseScheduler S E * list Line * result unit :=
  match aliases with
  | [] => (s, out, Ok tt)
  | alias :: aliases =>
      if bool_decide (jobstore = None \/ Some alias = jobstore) then
        let out := out ++ [JobstoreHeading alias] in
        match get_jobs jobstore (Some false) s with
        | (s, Raise e) => (s, out, Raise e)
        | (s, Ok jobs) =>
            let out := if nonempty jobs then out ++ map JobLine jobs
                       else out ++ [NoScheduledJobs] in
            print_jobstores aliases jobstore out s
        end
      else print_jobstores aliases jobstore out s
  end.

(** [print_jobs(jobstore=None, out=None)]; the result has the lines written
    to [out]. *)
Definition print_jobs (jobstore : option string) (s : BaseScheduler S E)
    : BaseScheduler S E * list Line * result unit :=
  match get_jobs jobstore (Some true) s with
  | (s, Raise e) => (s, [], Raise e)
  | (s, Ok jobs) =>
      let out := if nonempty jobs then PendingJobsHeading :: map JobLine jobs else [] in
      print_jobstores (map_to_list (_jobstores s)).*1 jobstore out s
  end.
End MoreMethods.

(** *** Listeners *)

Module Listeners.
Section Listeners.
(** The callbacks, compared as Python compares them, and what calling one
    with the event at hand does: return or raise. *)
Context {C : Type} `{EqDecision C}.

(** [add_listener(callback, mask=EVENT_ALL)] on [self._listeners] *)
Definition add_listener (callback : C) (mask : Z) (listeners : list (C * Z))
    : list (C * Z) :=
  listeners ++ [(callback, mask)].

(** [for i, (cb, _) in enumerate(self._listeners)] from position [i] on: the
    iterator reads the list as it is at each step, so the entry that takes
    the place of a deleted one is passed over.  The number of steps left is
    at most the length of the list. *)
Fixpoint remove_from (steps i : nat) (callback : C) (listeners : list (C * Z))
    : list (C * Z) :=
  match steps with
  | O => listeners
  | Datatypes.S steps =>
      match listeners !! i with
      | None => listeners
      | Some (cb, _) =>
          if decide (callback = cb)
          then remove_from steps (Datatypes.S i) callback (delete i listeners)
          else remove_from steps (Datatypes.S i) callback listeners
      end
  end.

(** [remove_listener(callback)] *)
Definition remove_listener (callback : C) (listeners : list (C * Z)) : list (C * Z) :=
  remove_from (length listeners) 0 callback listeners.

(** What [_notify_listeners] does for an event. *)
Inductive Action :=
| Call (cb : C)
| LogError (msg : string).

(** [_notify_listeners(event)] for an event with the given [code]:
    [raises cb] tells whether [cb(event)] raises. *)
Definition _notify_listeners (raises : C -> bool) (code : Z) (listeners : list (C * Z))
    : list Action :=
  flat_map (fun '(cb, mask) =>
              if Z.eqb (Z.land code mask) 0 then []
              else Call cb :: (if raises cb then [LogError "Error notifying listener"]
                               else []))
           listeners.

(** The callbacks called, in order. *)
Definition calls (actions : list Action) : list C :=
  omap (fun a => match a with Call cb => Some cb | LogError _ => None end) actions.
End Listeners.
End Listeners.

(** ** What a method leaves alone *)

(** The store calls [add_job] in a trace: alias and job of each. *)
Definition store_adds (tr : list Effect) : list (string * Job.t) :=
  omap (fun e => match e with
                 | StoreCall alias (add_job_call job) _ => Some (alias, job)
                 | _ => None
                 end) tr.

(** The number of calls of [_wakeup]. *)
Definition wakeups (tr : list Effect) : nat :=
  length (List.filter (fun e => match e with Wakeup => true | _ => false end) tr).

(** The store calls in a trace. *)
Definition store_calls (tr : list Effect) : list (string * StoreOp) :=
  omap (fun e => match e with StoreCall alias op _ => Some (alias, op) | _ => None end) tr.

(** A wakeup time [r] that is there and not later than [w], if [w] is a
    time. *)
Definition no_later (w r : option Time) : Prop :=
  match w with
  | Some w => exists w', r = Some w' /\ w' <= w
  | None => True
  end.

Section Observations.
Context {S E : Type}.

(** Lifecycle state, clock, configuration, and the aliases registered. *)
Definition core (s : BaseScheduler S E)
    : bool * Time * Z * bool * TimeZone * gset string * gset string :=
  (_stopped s, clock s, misfire_grace_time s, coalesce s, timezone s,
   dom (_executors s), dom (_jobstores s)).

(** Lifecycle state, clock, configuration and the pending list. *)
Definition staging (s : BaseScheduler S E)
    : bool * Time * Z * bool * TimeZone * list (Job.t * string) :=
  (_stopped s, clock s, misfire_grace_time s, coalesce s, timezone s, _pending_jobs s).

(** The method [m] leaves the observation [f] of the scheduler as it is. *)
Definition preserves {X A} (f : BaseScheduler S E -> X) (m : M S E A) : Prop :=
  forall s, f (m s).1 = f s.

(** An observation that does not see the trace, nor the object behind an
    alias that is registered. *)
Record steady {X} (f : BaseScheduler S E -> X) : Prop := mk_steady {
  steady_trace : forall tr s, f (set_trace tr s) = f s;
  steady_jobstore : forall alias st s,
    is_Some (_jobstores s !! alias) ->
    f (set_jobstores (<[alias := st]> (_jobstores s)) s) = f s;
  steady_executor : forall alias ex s,
    is_Some (_executors s !! alias) ->
    f (set_executors (<[alias := ex]> (_executors s)) s) = f s
}.
End Observations.

Section Listing.
Context {S E : Type} `{!JobStore S}.

(** The handles of the jobs that the stores list, store after store. *)
Definition all_jobs (s : BaseScheduler S E) : list JobHandle :=
  flat_map (fun '(alias, store) =>
              match (store_get_all_jobs store).2 with
              | Ok jobs => map (mkJobHandle alias) jobs
              | Raise _ => []
              end)
           (map_to_list (_jobstores s)).
End Listing.

(** ** More schedulers to run the model on *)

Section MoreScenarios.
#[local] Existing Instances SpecJob MemoryStore Pool BrokenStore BrokenPool.

(** [add_job('tick', 'interval', id=..., misfire_grace_time=10,
    jobstore=..., executor=..., start_date=0, seconds=1)] *)
Definition job_for (id jobstore executor : string) : add_job_args :=
  mk_add_job_args "tick" (Some (TriggerName "interval")) None None (Some id) None
    (Some 10) None None 1 jobstore executor
    {[ "start_date" := VDateTime 0; "seconds" := VInt 1 ]}.

(** A stopped scheduler with two jobs pending for the default store. *)
Definition two_pending : BaseScheduler MemoryJobStore PoolExecutor :=
  exec (add_job (job_for "b" "default" "default"))
    (exec (add_job (job_for "a" "default" "default")) fresh).

(** A stopped scheduler with a job pending for the default store and then
    one pending for a store that is not registered. *)
Definition misrouted : BaseScheduler MemoryJobStore PoolExecutor :=
  exec (add_job (job_for "b" "nowhere" "default"))
    (exec (add_job (job_for "a" "default" "default")) fresh).

(** A running scheduler whose only job, due, is to run on an executor that
    is not registered. *)
Definition without_executor : BaseScheduler MemoryJobStore PoolExecutor :=
  exec start (exec (add_job (job_for "a" "default" "gpu")) fresh).

(** The job [a] as the default store of [without_executor] holds it. *)
Definition stored_a : Job.t := tick without_executor.

(** A running scheduler with the job [a] in the store [default] and the
    job [b] in the store [archive]. *)
Definition two_stores : BaseScheduler MemoryJobStore PoolExecutor :=
  exec start
    (exec (add_job (job_for "b" "archive" "default"))
       (exec (add_job (job_for "a" "default" "default"))
          (exec (add_jobstore (mkMemoryJobStore []) "archive" true) fresh))).

(** A line of [print_jobs] in short: the store of a heading, the id of a
    job. *)
Definition shown (l : Line) : string :=
  match l with
  | PendingJobsHeading => "Pending jobs:"
  | JobstoreHeading alias => "Jobstore " +:+ alias +:+ ":"
  | JobLine h => match Job.id (handle_job h) with Some id => id | None => "?" end
  | NoScheduledJobs => "No scheduled jobs"
  end.


(** A stopped scheduler with two pending jobs of the same id [a], the first
    for the store [default] and the second for the store [archive]. *)
Definition twins : BaseScheduler MemoryJobStore PoolExecutor :=
  exec (add_job (job_for "a" "archive" "default"))
    (exec (add_job (job_for "a" "default" "default")) fresh).

(** A running scheduler with the job [tick] due, whose executor is out of
    order. *)
Definition on_broken_executor : BaseScheduler MemoryJobStore BrokenExecutor :=
  exec start (exec (add_job (every_second None false)) (init "UTC" 0)).

(** Listeners: the callback [1] registered twice, around the callback [2]. *)
Definition listeners_121 : list (nat * Z) := [(1%nat, 255); (2%nat, 255); (1%nat, 3)].
End MoreScenarios.

(** * Properties *)

Section Properties.
Context {S E : Type} `{!JobAPI} `{!JobStore S} `{!Executor E}.

Local Abbreviation Sched := (BaseScheduler S E).

Implicit Types (s : Sched) (job : Job.t) (now : Time).

(** ** Pending jobs: [modify_job] and [remove_job] *)

(** C10, as the code has it.  A pending job whose id is the one given:
    [modify_job] and [remove_job] stop at the first pending entry with that
    id, which is this job unless an earlier entry has the same id; a later
    entry with the id is not reached.  [modify_job] replaces the
    job of the entry by what [job.modify(changes)] makes of it and ends as
    that call does; [remove_job] deletes the entry.  The store alias given
    plays no part, whatever alias the entry is destined for; no store is
    called, no event is emitted, no wakeup is requested: registries and
    trace are as before.  This holds in every state, so in particular while
    the scheduler is stopped. *)
Theorem pending_job_matched_by_id_alone
    (job_id : option string) (jobstore : string) (changes : dict) s
    (job : Job.t) (alias : string) (k : nat) :
  _pending_jobs s !! k = Some (job, alias) ->
  Job.id job = job_id ->
  exists i job0 alias0,
    _pending_jobs s !! i = Some (job0, alias0) /\
    Job.id job0 = job_id /\
    (forall k' p, (k' < i)%nat -> _pending_jobs s !! k' = Some p -> Job.id p.1 <> job_id) /\
    ((forall k' p, (k' < k)%nat -> _pending_jobs s !! k' = Some p -> Job.id p.1 <> job_id) ->
     i = k /\ job0 = job /\ alias0 = alias) /\
    modify_job job_id jobstore changes s =
      (set_pending_jobs (<[i := ((modify job0 changes).1, alias0)]> (_pending_jobs s)) s,
       (modify job0 changes).2) /\
    remove_job job_id jobstore s =
      (set_pending_jobs (delete i (_pending_jobs s)) s, Ok tt) /\
    (forall s', s' = (modify_job job_id jobstore changes s).1 \/
                s' = (remove_job job_id jobstore s).1 ->
       _jobstores s' = _jobstores s /\ _executors s' = _executors s /\
       trace s' = trace s /\ _stopped s' = _stopped s).
Proof.
  intros Hk Hid.
  destruct (find_pending job_id (_pending_jobs s)) as [[i [job0 alias0]]|] eqn:Hfind.
  - exists i, job0, alias0.
    pose proof Hfind as Hf. unfold find_pending in Hf.
    apply list_find_Some in Hf as (Hi & Hid0 & Hfirst). simpl in Hid0.
    assert (Hm : modify_job job_id jobstore changes s =
      (set_pending_jobs (<[i := ((modify job0 changes).1, alias0)]> (_pending_jobs s)) s,
       (modify job0 changes).2)).
    { unfold modify_job. rewrite Hfind. by destruct (modify job0 changes). }
    assert (Hr : remove_job job_id jobstore s =
      (set_pending_jobs (delete i (_pending_jobs s)) s, Ok tt)).
    { unfold remove_job. by rewrite Hfind. }
    split; [done|]. split; [done|].
    split; [intros k' p Hlt Hp; by apply (Hfirst k' p)|].
    split.
    { intros Honly.
      assert (i = k) as ->.
      { destruct (Nat.lt_trichotomy i k) as [Hlt|[Heq|Hgt]]; [|done|].
        - by destruct (Honly i (job0, alias0) Hlt Hi).
        - by destruct (Hfirst k (job, alias) Hk Hgt). }
      rewrite Hk in Hi. by injection Hi as <- <-. }
    split; [done|]. split; [done|].
    intros s' [-> | ->]; rewrite ?Hm, ?Hr; done.
  - exfalso. unfold find_pending in Hfind.
    apply list_find_None in Hfind. apply list_elem_of_lookup_2 in Hk.
    rewrite Forall_forall in Hfind. by apply (Hfind (job, alias)).
Qed.

(** ** The firing loop, one due job at a time *)

Lemma process_job_unfold now alias job nw s ex :
  _executors s !! Job.executor job = Some ex ->
  nonempty (coalesced job (get_run_times job now)) = true ->
  process_job now alias job nw s =
    let run_times := coalesced job (get_run_times job now) in
    let s1 := after_submit s job run_times ex in
    match (executor_submit_job ex job run_times).2 with
    | Ok _ => update_or_remove now alias job run_times nw s1
    | Raise MaxInstancesReachedError =>
        (set_trace (trace s1 ++ [Log WARNING
           "Execution of job '%s' skipped: maximum number of running instances reached (%d)"]) s1,
         Ok nw)
    | Raise _ =>
        (set_trace (trace s1 ++ [Log ERROR "Error submitting job '%s' to executor '%s'"]) s1,
         Ok nw)
    end.
Proof.
  intros Hex Hne. unfold process_job, bind, attempt, _lookup_executor.
  rewrite Hex, Hne. unfold call_executor, bind, _lookup_executor, after_submit.
  rewrite Hex. cbn zeta.
  destruct (executor_submit_job ex job _) as [ex' [[]|e]]; simpl; [done|].
  by destruct e.
Qed.

(** C2. A due job whose [submit_job] raises [MaxInstancesReachedError]: the
    loop body logs a warning and ends without an exception, with the wakeup
    time it was given; no store method is called, so every store object, and
    with it the job's [next_run_time] and [runs], is as before and the next
    scan finds the same job due. *)
Theorem max_instances_reached_leaves_job_unchanged
    now (jobstore_alias : string) job (next_wakeup_time : option Time) s (ex : E) :
  _executors s !! Job.executor job = Some ex ->
  nonempty (coalesced job (get_run_times job now)) = true ->
  (executor_submit_job ex job (coalesced job (get_run_times job now))).2
    = Raise MaxInstancesReachedError ->
  let run_times := coalesced job (get_run_times job now) in
  let s' := (process_job now jobstore_alias job next_wakeup_time s).1 in
  (process_job now jobstore_alias job next_wakeup_time s).2 = Ok next_wakeup_time /\
  _jobstores s' = _jobstores s /\
  _pending_jobs s' = _pending_jobs s /\
  trace s' = trace s ++
    [ExecutorCall (Job.executor job) (submit_job_call job run_times)
       (Some MaxInstancesReachedError);
     Log WARNING
       "Execution of job '%s' skipped: maximum number of running instances reached (%d)"].
Proof.
  intros Hex Hne Hsub. cbn zeta.
  rewrite (process_job_unfold _ _ _ _ _ _ Hex Hne). cbn zeta.
  rewrite Hsub. unfold after_submit. rewrite Hsub. simpl.
  by rewrite <- app_assoc.
Qed.




(** ** Coalescing *)








(** ** Exceptions in the firing loop *)

(** The loop over the stores ends with what the due scan of a store
    raises. *)
Lemma due_scan_exception_ends_pass now (alias : string) (aliases : list string)
    (nw : option Time) s (st : S) (e : exn) :
  _jobstores s !! alias = Some st ->
  (store_get_pending_jobs st now).2 = Raise e ->
  (for_each (alias :: aliases) (process_jobstore now) nw s).2 = Raise e.
Proof.
  intros Hst Hscan. simpl. unfold bind at 1. unfold process_jobstore, bind at 1.
  unfold call_jobstore. rewrite Hst.
  destruct (store_get_pending_jobs st now) as [st' r]. simpl in Hscan. by subst r.
Qed.

(** C6, as the code has it.  For a due job [job], followed in the due list
    of its store by [jobs]:
    - if the lookup of the job's executor fails, the loop logs an error and
      goes on with [jobs];
    - if [submit_job] raises, whatever the exception, the loop logs it (a
      warning for [MaxInstancesReachedError], an error otherwise) and goes
      on with [jobs];
    - if the due scan of a store raises, the loop over the stores ends with
      that exception;
    - if the submission succeeded and the store raises in [modify_job] and
      in [remove_job], the loop over the jobs ends with that exception. *)
Theorem firing_loop_catches_executor_exceptions_only
    now (alias : string) job (jobs : list Job.t) (aliases : list string)
    (nw : option Time) s :
  let run_times := coalesced job (get_run_times job now) in
  (_executors s !! Job.executor job = None ->
   for_each (job :: jobs) (process_job now alias) nw s
   = for_each jobs (process_job now alias) nw
       (set_trace (trace s ++ [Log ERROR "Executor lookup failed for job '%s': %s"]) s)) /\
  (forall (ex : E) (e : exn),
     _executors s !! Job.executor job = Some ex ->
     nonempty run_times = true ->
     (executor_submit_job ex job run_times).2 = Raise e ->
     let s1 := after_submit s job run_times ex in
     for_each (job :: jobs) (process_job now alias) nw s
     = for_each jobs (process_job now alias) nw
         (set_trace
            (trace s1 ++
               [match e with
                | MaxInstancesReachedError =>
                    Log WARNING
                      "Execution of job '%s' skipped: maximum number of running instances reached (%d)"
                | _ => Log ERROR "Error submitting job '%s' to executor '%s'"
                end])
            s1)) /\
  (forall (st : S) (e : exn),
     _jobstores s !! alias = Some st ->
     (store_get_pending_jobs st now).2 = Raise e ->
     (for_each (alias :: aliases) (process_jobstore now) nw s).2 = Raise e) /\
  (forall (ex : E) (st : S) (e : exn),
     _executors s !! Job.executor job = Some ex ->
     nonempty run_times = true ->
     (executor_submit_job ex job run_times).2 = Ok tt ->
     _jobstores s !! alias = Some st ->
     find_pending (Job.id job) (_pending_jobs s) = None ->
     (forall changes, (store_modify_job st (Job.id job) changes).2 = Raise e) ->
     (store_remove_job st (Job.id job)).2 = Raise e ->
     (for_each (job :: jobs) (process_job now alias) nw s).2 = Raise e).
Proof.
  cbn zeta. split; [|split; [|split]].
  - intros Hex. simpl. unfold bind at 1.
    unfold process_job, bind, attempt, _lookup_executor. rewrite Hex.
    unfold log, emit, ret. done.
  - intros ex e Hex Hne Hsub. simpl. unfold bind at 1.
    rewrite (process_job_unfold _ _ _ _ _ _ Hex Hne). cbn zeta. rewrite Hsub.
    destruct e; unfold after_submit; simpl; by rewrite ?Hsub.
  - intros st e. apply due_scan_exception_ends_pass.
  - intros ex st e Hex Hne Hsub Hst Hpend Hmod Hrem. simpl. unfold bind at 1.
    rewrite (process_job_unfold _ _ _ _ _ _ Hex Hne). cbn zeta. rewrite Hsub.
    unfold update_or_remove.
    assert (Hremove :
      (bind (remove_job (Job.id job) alias) (fun _ => ret nw)
         (after_submit s job (coalesced job (get_run_times job now)) ex)).2 = Raise e).
    { unfold bind at 1, remove_job. simpl. rewrite Hpend.
      unfold bind, call_jobstore. simpl. rewrite Hst. simpl. rewrite Hst.
      destruct (store_remove_job st (Job.id job)) as [st' r].
      simpl in Hrem. by subst r. }
    destruct (get_next_fire_time (Job.trigger job) (now + 1)) as [t|].
    + destruct (runs_left job _).
      * unfold bind at 1, call_jobstore. simpl. rewrite Hst.
        specialize (Hmod {[ "next_run_time" := VDateTime t;
                            "runs" := VInt (Job.runs job
                                            + len (coalesced job (get_run_times job now))) ]}).
        destruct (store_modify_job st (Job.id job) _) as [st' r].
        simpl in Hmod. by subst r.
      * destruct (bind _ _ _) as [s2 r]. simpl in Hremove. by subst r.
    + destruct (bind _ _ _) as [s2 r]. simpl in Hremove. by subst r.
Qed.

(** ** Shutdown *)

Lemma for_each_preserves {A B} (P : Sched -> Prop) (body : A -> B -> M S E B) :
  (forall x acc s, P s -> P (body x acc s).1) ->
  forall l acc s, P s -> P (for_each l body acc s).1.
Proof.
  intros Hbody l. induction l as [|x l IH]; intros acc s HP; simpl; [done|].
  unfold bind. specialize (Hbody x acc s HP).
  destruct (body x acc s) as [s1 [acc1|e]]; simpl in *; [by apply IH|done].
Qed.

Lemma call_executor_stopped {A} (alias : string) (op : ExecutorOp)
    (method : E -> E * result A) s :
  _stopped (call_executor alias op method s).1 = _stopped s.
Proof.
  unfold call_executor, bind, _lookup_executor.
  destruct (_executors s !! alias) as [ex|]; [|done]. by destruct (method ex).
Qed.

Lemma call_jobstore_stopped {A} (alias : string) (op : StoreOp)
    (method : S -> S * result A) s :
  _stopped (call_jobstore alias op method s).1 = _stopped s.
Proof.
  unfold call_jobstore.
  destruct (_jobstores s !! alias) as [st|]; [|done]. by destruct (method st).
Qed.

(** Whether [shutdown] returns or raises in an executor or a store, it has
    stopped a scheduler that was running. *)
Lemma shutdown_stops (wait : bool) s :
  running s = true -> _stopped (shutdown wait s).1 = true.
Proof.
  intros Hrun. unfold shutdown, bind. rewrite Hrun.
  match goal with |- context [for_each ?l ?b tt ?s0] =>
    pose proof (for_each_preserves (fun s => _stopped s = true) b
                  (fun x acc s1 H1 => eq_trans (call_executor_stopped _ _ _ s1) H1)
                  l tt s0 eq_refl) as H1;
    destruct (for_each l b tt s0) as [s1 [[]|e]]; [|done]
  end.
  match goal with |- context [for_each ?l ?b tt ?s0] =>
    pose proof (for_each_preserves (fun s => _stopped s = true) b
                  (fun x acc s2 H2 => eq_trans (call_jobstore_stopped _ _ _ s2) H2)
                  l tt s0 H1) as H2;
    destruct (for_each l b tt s0) as [s2 [[]|e]]; [|done]
  end.
  done.
Qed.

(** C7, as the code has it.  After [shutdown(wait)] has returned the
    scheduler is stopped and a second [shutdown] raises
    [SchedulerNotRunningError]; [add_job] does not raise: it appends the job
    to the pending list, logs that the job is added tentatively and returns
    its handle. *)
Theorem after_shutdown_add_job_is_pending (wait : bool) s s' :
  shutdown wait s = (s', Ok tt) ->
  _stopped s' = true /\
  (forall wait', shutdown wait' s' = (s', Raise SchedulerNotRunningError)) /\
  (forall a,
     let job := Job.init (job_kwargs a s') in
     add_job a s' =
       (set_trace
          (trace s' ++ [Log INFO
             "Adding job tentatively -- it will be properly scheduled when the scheduler starts"])
          (set_pending_jobs (_pending_jobs s' ++ [(job, arg_jobstore a)]) s'),
        Ok (mkJobHandle (arg_jobstore a) job))).
Proof.
  intros Hdown.
  assert (Hstopped : _stopped s' = true).
  { destruct (running s) eqn:Hrun.
    - pose proof (shutdown_stops wait s Hrun) as Hs. by rewrite Hdown in Hs.
    - unfold shutdown, bind in Hdown. by rewrite Hrun in Hdown. }
  split; [done|]. split.
  - intros wait'. unfold shutdown, bind, running. by rewrite Hstopped.
  - intros a. cbn zeta. unfold add_job, running. by rewrite Hstopped.
Qed.

(** ** [modify_job] on a stored job *)

(** C8, as the code has it.  [modify_job] with an empty change set on a job
    that is in the store (and not pending), for a job that accepts the empty
    change set and a store that an empty change leaves as it is: the job is
    looked up, the store is handed the empty change set, store and job are
    as before; the event [EVENT_JOBSTORE_JOB_MODIFIED] is emitted and a
    wakeup is requested all the same. *)
Theorem modify_job_without_changes_notifies
    (job_id : option string) (jobstore : string) s (st : S) job :
  find_pending job_id (_pending_jobs s) = None ->
  _jobstores s !! jobstore = Some st ->
  store_lookup_job st job_id = (st, Ok job) ->
  validate_changes job ∅ = Ok ∅ ->
  store_modify_job st job_id ∅ = (st, Ok tt) ->
  modify_job job_id jobstore ∅ s =
    (set_trace
       (trace s ++
          [StoreCall jobstore (lookup_job_call job_id) None;
           StoreCall jobstore (modify_job_call job_id ∅) None;
           Notify (JobStoreEvent EVENT_JOBSTORE_JOB_MODIFIED jobstore (Some job_id));
           Wakeup])
       s,
     Ok tt).
Proof.
  intros Hpend Hst Hlookup Hvalid Hmodify.
  unfold modify_job. rewrite Hpend.
  unfold bind, call_jobstore, _notify_listeners, _wakeup, emit. simpl.
  rewrite Hst, ?lookup_empty. simpl. rewrite ?Hst, Hlookup. simpl.
  rewrite Hvalid. simpl. rewrite lookup_insert_eq, Hmodify. simpl.
  rewrite insert_insert_eq, (insert_id _ _ _ Hst), <- !app_assoc. simpl.
  by destruct s.
Qed.

(** ** [add_job] without a trigger, [get_jobs] of one store *)

(** With no trigger given, [add_job] names the [date] trigger with
    [run_date] the current time; the [None] it assigns to
    [misfire_grace_time] is then replaced by the scheduler's default. *)
Lemma add_job_without_trigger (a : add_job_args) s :
  arg_trigger a = None ->
  let job := Job.init (job_kwargs a s) in
  trigger_class (Job.trigger job) = "date" /\
  trigger_kwargs (Job.trigger job) !! "run_date" = Some (VDateTime (clock s)) /\
  Job.misfire_grace_time job = Some (misfire_grace_time s).
Proof.
  intros Hnone. cbn zeta. unfold job_kwargs. rewrite Hnone. simpl.
  split; [done|]. split; [|done].
  destruct (_ !! "timezone"); [by rewrite lookup_insert_eq|].
  rewrite lookup_insert_ne; [by rewrite lookup_insert_eq|done].
Qed.

(** With a store alias and [pending] other than [True], [get_jobs] raises:
    [six.iteritems] is given the list [[jobstore]]. *)
Lemma get_jobs_of_one_store_raises (alias : string) (pending : option bool) s :
  alias <> EmptyString ->
  pending <> Some true ->
  get_jobs (Some alias) pending s =
    (s, Raise (AttributeError "'list' object has no attribute 'items'")).
Proof.
  intros Halias Hpending. unfold get_jobs.
  rewrite (bool_decide_eq_true_2 _ Hpending). unfold truthy_str.
  apply String.eqb_neq in Halias. rewrite Halias. done.
Qed.

(** ** While the scheduler runs, no job is pending *)

Lemma quiet_refl s : quiet s s.
Proof. by split. Qed.

Lemma quiet_trans s1 s2 s3 : quiet s1 s2 -> quiet s2 s3 -> quiet s1 s3.
Proof. intros [H1 H1'] [H2 H2']. split; [congruence|auto]. Qed.

Lemma quietM_ret {A} (a : A) : quietM (ret (S := S) (E := E) a).
Proof. intros s. apply quiet_refl. Qed.

Lemma quietM_emit (e : Effect) : quietM (emit (S := S) (E := E) e).
Proof. intros s. by split. Qed.

Lemma quietM_bind {A B} (m : M S E A) (k : A -> M S E B) :
  quietM m -> (forall a, quietM (k a)) -> quietM (bind m k).
Proof.
  intros Hm Hk s. unfold bind. specialize (Hm s).
  destruct (m s) as [s1 [a|e]]; simpl in *; [|done].
  eapply quiet_trans; [exact Hm|apply Hk].
Qed.

Lemma quietM_attempt {A} (m : M S E A) : quietM m -> quietM (attempt m).
Proof. intros Hm s. unfold attempt. specialize (Hm s). by destruct (m s). Qed.

Lemma quietM_for_each {A B} (body : A -> B -> M S E B) (l : list A) (acc : B) :
  (forall x acc, quietM (body x acc)) -> quietM (for_each l body acc).
Proof.
  intros Hbody. revert acc. induction l as [|x l IH]; intros acc; simpl.
  - apply quietM_ret.
  - apply quietM_bind; [apply Hbody|apply IH].
Qed.

Lemma quietM_call_jobstore {A} (alias : string) (op : StoreOp)
    (method : S -> S * result A) : quietM (call_jobstore (E := E) alias op method).
Proof.
  intros s. unfold call_jobstore.
  destruct (_jobstores s !! alias) as [st|]; [|apply quiet_refl].
  by destruct (method st).
Qed.

Lemma quietM_lookup_executor (alias : string) :
  quietM (_lookup_executor (S := S) (E := E) alias).
Proof.
  intros s. unfold _lookup_executor. destruct (_executors s !! alias); apply quiet_refl.
Qed.

Lemma quietM_call_executor {A} (alias : string) (op : ExecutorOp)
    (method : E -> E * result A) : quietM (call_executor (S := S) alias op method).
Proof.
  unfold call_executor. apply quietM_bind; [apply quietM_lookup_executor|].
  intros ex s. by destruct (method ex).
Qed.

Lemma quietM_remove_job (job_id : option string) (alias : string) :
  quietM (remove_job (E := E) job_id alias).
Proof.
  intros s. unfold remove_job.
  destruct (find_pending job_id (_pending_jobs s)) as [[i p]|] eqn:Hfind.
  - split; [done|]. intros Hnil. rewrite Hnil in Hfind. done.
  - apply quietM_bind.
    { intros s1. destruct (_jobstores s1 !! alias); apply quiet_refl. }
    intros _. apply quietM_bind; [apply quietM_call_jobstore|]. intros _.
    apply quietM_bind; [apply quietM_emit|]. intros _. apply quietM_emit.
Qed.

Lemma quietM_modify_job (job_id : option string) (alias : string) (changes : dict) :
  quietM (modify_job (E := E) job_id alias changes).
Proof.
  intros s. unfold modify_job.
  destruct (find_pending job_id (_pending_jobs s)) as [[i [job store]]|] eqn:Hfind.
  - destruct (modify job changes). split; [done|].
    intros Hnil. rewrite Hnil in Hfind. done.
  - apply quietM_bind.
    { intros s1. destruct (_jobstores s1 !! alias); apply quiet_refl. }
    intros _. apply quietM_bind; [apply quietM_call_jobstore|]. intros job.
    apply quietM_bind; [intros s1; apply quiet_refl|]. intros changes'.
    apply quietM_bind; [apply quietM_call_jobstore|]. intros _.
    apply quietM_bind; [apply quietM_emit|]. intros _. apply quietM_emit.
Qed.

Lemma quietM_get_jobs (jobstore : option string) (pending : option bool) :
  quietM (get_jobs (E := E) jobstore pending).
Proof.
  intros s. unfold get_jobs. case_bool_decide; [|apply quiet_refl].
  apply quietM_bind; [intros s1; apply quiet_refl|]. intros items.
  apply quietM_for_each. intros [alias st] jobs.
  apply quietM_bind; [apply quietM_call_jobstore|]. intros stored. apply quietM_ret.
Qed.

Lemma quietM_add_executor (executor : E) (alias : string) :
  quietM (add_executor (S := S) executor alias).
Proof.
  intros s. unfold add_executor. destruct (_executors s !! alias); [apply quiet_refl|].
  destruct (running _); [|by split].
  eapply quiet_trans; [|apply quietM_call_executor]. by split.
Qed.

Lemma quietM_add_jobstore (jobstore : S) (alias : string) (q : bool) :
  quietM (add_jobstore (E := E) jobstore alias q).
Proof.
  unfold add_jobstore. apply quietM_bind.
  { intros s. destruct (_jobstores s !! alias); by split. }
  intros _. apply quietM_bind; [apply quietM_emit|]. intros _ s.
  destruct (negb q && running s); [apply quietM_emit|apply quiet_refl].
Qed.

Lemma quietM_real_add_job job (jobstore : string) (wakeup : bool) :
  quietM (_real_add_job (E := E) job jobstore wakeup).
Proof.
  unfold _real_add_job. apply quietM_bind; [intros s; apply quiet_refl|]. intros now.
  apply quietM_bind.
  { intros s. destruct (_jobstores s !! jobstore); [|apply quiet_refl].
    apply quietM_call_jobstore. }
  intros job'. apply quietM_bind; [apply quietM_emit|]. intros _.
  apply quietM_bind; [apply quietM_emit|]. intros _.
  apply quietM_bind; [|intros _; apply quietM_ret].
  destruct wakeup; [apply quietM_emit|apply quietM_ret].
Qed.

Lemma quietM_process_jobs : quietM _process_jobs.
Proof.
  assert (Hupdate : forall now alias job run_times nw,
            quietM (update_or_remove (E := E) now alias job run_times nw)).
  { intros. unfold update_or_remove.
    destruct (get_next_fire_time _ _);
      [destruct (runs_left _ _)|];
      (apply quietM_bind;
       [first [apply quietM_call_jobstore | apply quietM_remove_job]
       |intros _; apply quietM_ret]). }
  assert (Hjob : forall now alias job nw, quietM (process_job now alias job nw)).
  { intros. unfold process_job.
    apply quietM_bind; [apply quietM_attempt, quietM_lookup_executor|].
    intros [ex|e].
    - destruct (nonempty _); [|apply quietM_ret].
      apply quietM_bind; [apply quietM_attempt, quietM_call_executor|].
      intros [[]|e]; [apply Hupdate|].
      destruct e; (apply quietM_bind; [apply quietM_emit|intros _; apply quietM_ret]).
    - apply quietM_bind; [apply quietM_emit|intros _; apply quietM_ret]. }
  unfold _process_jobs.
  apply quietM_bind; [apply quietM_emit|]. intros _.
  apply quietM_bind; [intros s; apply quiet_refl|]. intros now.
  apply quietM_bind.
  { intros s. apply quietM_for_each. intros alias nw. unfold process_jobstore.
    apply quietM_bind; [apply quietM_call_jobstore|]. intros [jobs t].
    apply quietM_for_each. intros job nw'. apply Hjob. }
  intros [t|].
  - apply quietM_bind; [apply quietM_emit|]. intros _.
    apply quietM_bind; [apply quietM_emit|]. intros _. apply quietM_ret.
  - apply quietM_bind; [apply quietM_emit|]. intros _. apply quietM_ret.
Qed.

Lemma bind_cases {A B} (m : M S E A) (k : A -> M S E B)
    (P : Sched * result B -> Prop) s :
  (forall s1 e, m s = (s1, Raise e) -> P (s1, Raise e)) ->
  (forall s1 a, m s = (s1, Ok a) -> P (k a s1)) ->
  P (bind m k s).
Proof.
  intros Hraise Hok. unfold bind.
  destruct (m s) as [s1 [a|e]]; [by apply Hok|by apply Hraise].
Qed.

Lemma quietM_stopped {A} (m : M S E A) s s1 (r : result A) :
  quietM m -> m s = (s1, r) -> _stopped s = true -> _stopped s1 = true.
Proof. intros Hm Heq Hs. destruct (Hm s) as [H1 _]. rewrite Heq in H1. simpl in H1. congruence. Qed.

(** One more statement of [start] during which the scheduler stays
    stopped; [tac] shows that the statement is quiet. *)
Ltac start_step Hst tac :=
  cbv beta;
  match goal with
  | |- _stopped (bind ?m ?k ?s).1 = false -> _ =>
      let Hq := fresh "Hq" in
      let Hm := fresh "Hm" in
      assert (Hq : quietM m) by tac;
      apply (bind_cases m k
               (fun out => _stopped out.1 = false -> _pending_jobs out.1 = []) s);
      [ intros ? ? Hm; pose proof (quietM_stopped m _ _ _ Hq Hm Hst); simpl; congruence
      | intros ? ? Hm; apply (quietM_stopped m _ _ _ Hq) in Hm; [|exact Hst];
        clear Hq Hst; rename Hm into Hst ]
  end.

(** [start] leaves the scheduler stopped unless it comes to its end, where
    the pending list has been emptied. *)
Lemma start_running_no_pending s :
  (_stopped s = false -> _pending_jobs s = []) ->
  _stopped (start s).1 = false -> _pending_jobs (start s).1 = [].
Proof.
  intros Hinv. unfold start.
  match goal with |- _stopped (bind ?m ?k ?s).1 = false -> _ =>
    apply (bind_cases m k
             (fun out => _stopped out.1 = false -> _pending_jobs out.1 = []) s)
  end.
  { intros s1 e Hm. unfold running in Hm.
    destruct (_stopped s); simpl in Hm; [done|]. injection Hm as <- _.
    intros _. by apply Hinv. }
  intros s1 [] Hm.
  assert (Hst : _stopped s1 = true).
  { unfold running in Hm. destruct (_stopped s) eqn:Hs; simpl in Hm; [|done].
    by injection Hm as <-. }
  clear Hm Hinv s.
  start_step Hst ltac:(intros x; destruct (_executors x !! "default");
                       [apply quiet_refl|apply quietM_add_executor]).
  start_step Hst ltac:(intros x; destruct (_jobstores x !! "default");
                       [apply quiet_refl|apply quietM_add_jobstore]).
  start_step Hst ltac:(intros x; apply quietM_for_each; intros alias [];
                       apply quietM_call_executor).
  start_step Hst ltac:(intros x; apply quietM_for_each; intros [job jobstore] [];
                       apply quietM_bind; [apply quietM_real_add_job|];
                       intros _; apply quietM_ret).
  done.
Qed.

(** In every reachable state the pending list is empty while the scheduler
    runs: the firing loop of a running scheduler meets no pending job. *)
Lemma running_has_no_pending_jobs s :
  reachable s -> _stopped s = false -> _pending_jobs s = [].
Proof.
  assert (Hquiet : forall (s s' : Sched),
            quiet s s' -> (_stopped s = false -> _pending_jobs s = []) ->
            _stopped s' = false -> _pending_jobs s' = []).
  { intros s1 s2 [Hst Hp] Hinv Hrun. apply Hp, Hinv. congruence. }
  induction 1 as [s Hstopped Hnil| s now _ IH | s _ IH | s wait _ IH
                 | s executor alias _ IH | s jobstore alias q _ IH | s a _ IH
                 | s job_id jobstore changes _ IH | s job_id jobstore _ IH
                 | s jobstore pending _ IH | s _ IH].
  - done.
  - exact IH.
  - by apply start_running_no_pending.
  - intros Hrun. destruct (running s) eqn:Hr.
    + by rewrite (shutdown_stops wait s Hr) in Hrun.
    + revert Hrun. unfold shutdown, bind. rewrite Hr. simpl. exact IH.
  - eapply Hquiet; [apply quietM_add_executor|exact IH].
  - eapply Hquiet; [apply quietM_add_jobstore|exact IH].
  - unfold add_job. destruct (negb (running s)) eqn:Hr.
    + simpl. unfold running in Hr. destruct (_stopped s); done.
    + eapply Hquiet; [|exact IH].
      apply quietM_bind; [apply quietM_real_add_job|].
      intros job'. apply quietM_ret.
  - eapply Hquiet; [apply quietM_modify_job|exact IH].
  - eapply Hquiet; [apply quietM_remove_job|exact IH].
  - eapply Hquiet; [apply quietM_get_jobs|exact IH].
  - eapply Hquiet; [apply quietM_process_jobs|exact IH].
Qed.

(** So the search of [remove_job] and [modify_job] through the pending list
    finds nothing when the scheduler runs. *)
Lemma running_finds_no_pending_job s (job_id : option string) :
  reachable s -> _stopped s = false ->
  find_pending job_id (_pending_jobs s) = None.
Proof.
  intros Hreach Hrun. by rewrite (running_has_no_pending_jobs s Hreach Hrun).
Qed.
End Properties.

(** * The statements on concrete schedulers *)

#[local] Existing Instances SpecJob MemoryStore Pool BrokenStore BrokenPool.

(** C10, the claim as stated fails.  Two pending jobs have the id [a], the
    first for the store [default] and the second for the store [archive].
    [remove_job] and [modify_job] for [a], called with the alias [archive],
    reach the first job only: the second, a pending job with the id, is
    neither deleted nor changed. *)
Lemma second_pending_job_with_the_id_is_not_reached :
  map (fun p => (Job.id p.1, Job.name p.1, p.2)) (_pending_jobs twins)
    = [(Some "a", None, "default"); (Some "a", None, "archive")] /\
  remove_job (Some "a") "archive" twins
    = (exec (remove_job (Some "a") "archive") twins, Ok tt) /\
  map (fun p => (Job.id p.1, Job.name p.1, p.2))
      (_pending_jobs (exec (remove_job (Some "a") "archive") twins))
    = [(Some "a", None, "archive")] /\
  modify_job (Some "a") "archive" {[ "name" := VStr "renamed" ]} twins
    = (exec (modify_job (Some "a") "archive" {[ "name" := VStr "renamed" ]}) twins, Ok tt) /\
  map (fun p => (Job.id p.1, Job.name p.1, p.2))
      (_pending_jobs (exec (modify_job (Some "a") "archive" {[ "name" := VStr "renamed" ]})
                        twins))
    = [(Some "a", Some "renamed", "default"); (Some "a", None, "archive")].
Proof. vm_compute. repeat split; reflexivity. Qed.

(** The job [tick] is pending for the store [default]; [remove_job] called
    with another alias deletes it. *)
Lemma pending_job_matched_by_id_alone_witness :
  _pending_jobs with_pending !! 0%nat = Some (tick with_pending, "default") /\
  remove_job (Some "tick") "elsewhere" with_pending
    = (set_pending_jobs [] with_pending, Ok tt).
Proof.
  split; [reflexivity|].
  destruct (pending_job_matched_by_id_alone (Some "tick") "elsewhere" ∅ with_pending
              (tick with_pending) "default" 0%nat eq_refl eq_refl)
    as (i & job0 & alias0 & _ & _ & _ & Hfirst & _ & Hremove & _).
  destruct Hfirst as (Hi & _ & _); [intros k' p Hlt; lia|].
  rewrite Hremove, Hi. reflexivity.
Defined.

(** The job [tick] is submitted at time [0] and is still in flight when it
    is due again a second later: the store keeps it as it is, and a second
    scan submits it again for the same run time. *)
Lemma max_instances_reached_witness :
  let s := set_clock second (exec _process_jobs (ticking None true 0)) in
  (process_job second "default" (tick s) None s).2 = Ok None /\
  stored_jobs (exec (process_job second "default" (tick s) None) s) "default"
    = stored_jobs s "default" /\
  map snd (submissions (skipn (length (trace s))
                          (trace (exec _process_jobs (exec _process_jobs s)))))
    = [[second]; [second]].
Proof.
  cbn zeta.
  set (s := set_clock second (exec _process_jobs (ticking None true 0))).
  assert (H1 : _executors s !! Job.executor (tick s) = Some (mkPoolExecutor [Some "tick"]))
    by (vm_compute; reflexivity).
  assert (H2 : nonempty (coalesced (tick s) (get_run_times (tick s) second)) = true)
    by (vm_compute; reflexivity).
  assert (H3 : (executor_submit_job (mkPoolExecutor [Some "tick"]) (tick s)
                  (coalesced (tick s) (get_run_times (tick s) second))).2
               = Raise MaxInstancesReachedError)
    by (vm_compute; reflexivity).
  destruct (max_instances_reached_leaves_job_unchanged second "default" (tick s) None s
              (mkPoolExecutor [Some "tick"]) H1 H2 H3) as (Hr & Hst & _ & _).
  split; [exact Hr|].
  split; [unfold stored_jobs, exec; rewrite Hst; reflexivity|].
  vm_compute. reflexivity.
Defined.




(** C6, the claim as stated fails: the due scan of a store that is out of
    order raises, and the exception leaves [_process_jobs]. *)
Lemma store_exception_leaves_firing_loop :
  (_process_jobs on_broken_store).2 = Raise (Exception "store unavailable").
Proof. vm_compute. reflexivity. Qed.

(** The executor is out of order: [submit_job] raises for the due job
    [tick]; the loop logs the error and goes on, and the pass returns.  The
    store is out of order: the exception of its [modify_job] after a
    submission leaves the loop. *)
Lemma firing_loop_catches_executor_exceptions_only_witness :
  let s := on_broken_executor in
  let job := tick (ticking None false 0) in
  let s1 := after_submit s job [0] broken_executor in
  _jobstores s !! "default" = Some (mkMemoryJobStore [job]) /\
  for_each [job] (process_job 0 "default") None s
  = (set_trace (trace s1 ++ [Log ERROR "Error submitting job '%s' to executor '%s'"]) s1,
     Ok None) /\
  (_process_jobs s).2 = Ok None /\
  (for_each [job] (process_job 0 "default") None on_broken_store).2
  = Raise (Exception "store unavailable").
Proof.
  cbn zeta.
  set (job := tick (ticking None false 0)).
  assert (Hrt : coalesced job (get_run_times job 0) = [0]) by (vm_compute; reflexivity).
  split; [vm_compute; reflexivity|]. split; [|split; [vm_compute; reflexivity|]].
  - destruct (firing_loop_catches_executor_exceptions_only 0 "default" job [] []
                None on_broken_executor) as (_ & Hsubmit & _).
    rewrite (Hsubmit broken_executor (Exception "executor unavailable")).
    + rewrite Hrt. reflexivity.
    + vm_compute. reflexivity.
    + vm_compute. reflexivity.
    + vm_compute. reflexivity.
  - destruct (firing_loop_catches_executor_exceptions_only 0 "default" job [] []
                None on_broken_store) as (_ & _ & _ & Hstore).
    apply (Hstore (mkPoolExecutor []) broken_jobstore).
    + vm_compute. reflexivity.
    + vm_compute. reflexivity.
    + vm_compute. reflexivity.
    + vm_compute. reflexivity.
    + vm_compute. reflexivity.
    + intros changes. reflexivity.
    + reflexivity.
Defined.

(** C7, the claim as stated fails: [add_job] after [shutdown] returns a
    handle and leaves the job pending. *)
Lemma add_job_after_shutdown_does_not_raise :
  shutdown true (exec start fresh) = (shut_down, Ok tt) /\
  exists h, add_job (add_job_defaults "f") shut_down
            = (exec (add_job (add_job_defaults "f")) shut_down, Ok h) /\
    _pending_jobs (exec (add_job (add_job_defaults "f")) shut_down)
      = [(handle_job h, "default")].
Proof.
  split; [vm_compute; reflexivity|].
  eexists. split; vm_compute; reflexivity.
Qed.

Lemma after_shutdown_add_job_is_pending_witness :
  shutdown true (exec start fresh) = (shut_down, Ok tt) /\
  _stopped shut_down = true /\
  shutdown false shut_down = (shut_down, Raise SchedulerNotRunningError).
Proof.
  assert (H1 : shutdown true (exec start fresh) = (shut_down, Ok tt))
    by (vm_compute; reflexivity).
  split; [exact H1|].
  destruct (after_shutdown_add_job_is_pending true (exec start fresh) shut_down H1)
    as (Hstopped & Hagain & _).
  split; [exact Hstopped|apply Hagain].
Defined.

(** C8, the claim as stated fails: [modify_job] without changes on the
    stored job [tick] emits [EVENT_JOBSTORE_JOB_MODIFIED]. *)
Lemma modify_job_without_changes_emits_event :
  let s := ticking None true 0 in
  let s' := exec (modify_job (Some "tick") "default" ∅) s in
  (modify_job (Some "tick") "default" ∅ s).2 = Ok tt /\
  stored_jobs s' "default" = stored_jobs s "default" /\
  events (trace s') =
    events (trace s)
      ++ [JobStoreEvent EVENT_JOBSTORE_JOB_MODIFIED "default" (Some (Some "tick"))] /\
  events (trace s') <> events (trace s).
Proof.
  cbn zeta. split; [vm_compute; reflexivity|].
  split; [vm_compute; reflexivity|].
  split; [vm_compute; reflexivity|].
  vm_compute. discriminate.
Qed.

Lemma modify_job_without_changes_notifies_witness :
  let s := ticking None true 0 in
  (modify_job (Some "tick") "default" ∅ s).2 = Ok tt /\
  trace (exec (modify_job (Some "tick") "default" ∅) s) =
    trace s ++
      [StoreCall "default" (lookup_job_call (Some "tick")) None;
       StoreCall "default" (modify_job_call (Some "tick") ∅) None;
       Notify (JobStoreEvent EVENT_JOBSTORE_JOB_MODIFIED "default" (Some (Some "tick")));
       Wakeup].
Proof.
  cbn zeta.
  set (s := ticking None true 0).
  assert (H1 : find_pending (Some "tick") (_pending_jobs s) = None)
    by (vm_compute; reflexivity).
  assert (H2 : _jobstores s !! "default" = Some (mkMemoryJobStore [tick s]))
    by (vm_compute; reflexivity).
  assert (H3 : store_lookup_job (mkMemoryJobStore [tick s]) (Some "tick")
               = (mkMemoryJobStore [tick s], Ok (tick s)))
    by (vm_compute; reflexivity).
  assert (H4 : validate_changes (tick s) ∅ = Ok ∅) by (vm_compute; reflexivity).
  assert (H5 : store_modify_job (mkMemoryJobStore [tick s]) (Some "tick") ∅
               = (mkMemoryJobStore [tick s], Ok tt))
    by (vm_compute; reflexivity).
  unfold exec.
  rewrite (modify_job_without_changes_notifies (Some "tick") "default" s
             (mkMemoryJobStore [tick s]) (tick s) H1 H2 H3 H4 H5).
  split; reflexivity.
Defined.

(** C4, at a failing input: [add_job('f')] on the running scheduler with
    the default [misfire_grace_time = 1].  The keyword arguments for the Job
    name the [date] trigger, with the current time as [run_date] and the
    scheduler's timezone, but carry the scheduler's grace time of one
    second, not [None]; so do the job of the handle and the job stored. *)
Theorem add_job_without_trigger_has_default_grace :
  let s := exec start fresh in
  let a := add_job_defaults "f" in
  arg_trigger a = None /\
  Job.kw_trigger (job_kwargs a s) = TriggerName "date" /\
  Job.kw_trigger_args (job_kwargs a s) !! "run_date" = Some (VDateTime (clock s)) /\
  Job.kw_trigger_args (job_kwargs a s) !! "timezone" = Some (VTz (timezone s)) /\
  Job.kw_misfire_grace_time (job_kwargs a s) = Some 1 /\
  exists h, (add_job a s).2 = Ok h /\
    Job.misfire_grace_time (handle_job h) = Some 1 /\
    map Job.misfire_grace_time (stored_jobs (exec (add_job a) s) "default") = [Some 1].
Proof.
  cbn zeta.
  destruct (add_job_without_trigger (add_job_defaults "f") (exec start fresh) eq_refl)
    as (_ & _ & Hgrace).
  split; [reflexivity|]. split; [reflexivity|].
  split; [vm_compute; reflexivity|]. split; [vm_compute; reflexivity|].
  split; [reflexivity|].
  eexists. split; [vm_compute; reflexivity|].
  split; [exact Hgrace|vm_compute; reflexivity].
Qed.

(** C5, at a failing input: the job [tick] with [max_runs = 2] and without
    coalescing, three run times due.  One pass of the firing loop submits
    all three with success, then removes the job. *)
Theorem submitted_run_times_exceed_max_runs :
  let s := ticking (Some 2) false (2 * second) in
  Job.max_runs (tick s) = Some 2 /\
  submitted_run_times (Some "tick") (trace s) = 0 /\
  (_process_jobs s).2 = Ok None /\
  submissions (trace (exec _process_jobs s))
    = [("default", tick s, [0; second; 2 * second])] /\
  submitted_run_times (Some "tick") (trace (exec _process_jobs s)) = 3 /\
  stored_jobs (exec _process_jobs s) "default" = [].
Proof. cbn zeta. repeat split; vm_compute; reflexivity. Qed.

(** C9, at a failing input: [get_jobs('default')] on a running scheduler
    raises [AttributeError]. *)
Theorem get_jobs_of_default_store_raises :
  let s := ticking None true 0 in
  get_jobs (Some "default") None s
    = (s, Raise (AttributeError "'list' object has no attribute 'items'")) /\
  get_jobs (Some "default") (Some false) s
    = (s, Raise (AttributeError "'list' object has no attribute 'items'")) /\
  (get_jobs None None s).2 = Ok [mkJobHandle "default" (tick s)].
Proof.
  cbn zeta. split; [by apply get_jobs_of_one_store_raises|].
  split; [by apply get_jobs_of_one_store_raises|].
  vm_compute. reflexivity.
Qed.

(** * Further properties of the methods *)

Section Further.
Context {S E : Type} `{!JobAPI} `{!JobStore S} `{!Executor E}.

Local Abbreviation Sched := (BaseScheduler S E).

Implicit Types (s : Sched) (job : Job.t) (now : Time).

(** ** What the methods leave alone *)

Lemma preserves_ret {X A} (f : Sched -> X) (a : A) : preserves f (ret a).
Proof. by intros s. Qed.

Lemma preserves_bind {X A B} (f : Sched -> X) (m : M S E A) (k : A -> M S E B) :
  preserves f m -> (forall a, preserves f (k a)) -> preserves f (bind m k).
Proof.
  intros Hm Hk s. unfold bind. specialize (Hm s).
  destruct (m s) as [s1 [a|e]]; simpl in *; [|done].
  by rewrite Hk.
Qed.

Lemma preserves_attempt {X A} (f : Sched -> X) (m : M S E A) :
  preserves f m -> preserves f (attempt m).
Proof. intros Hm s. unfold attempt. specialize (Hm s). by destruct (m s). Qed.

Lemma preserves_for_each {X A B} (f : Sched -> X) (body : A -> B -> M S E B)
    (l : list A) (acc : B) :
  (forall x acc, preserves f (body x acc)) -> preserves f (for_each l body acc).
Proof.
  intros Hbody. revert acc. induction l as [|x l IH]; intros acc; simpl.
  - apply preserves_ret.
  - apply preserves_bind; [apply Hbody|apply IH].
Qed.

Section Steady.
Context {X : Type} (f : Sched -> X) (Hf : steady f).

Lemma preserves_emit (e : Effect) : preserves f (emit e).
Proof. intros s. unfold emit. cbn [fst]. apply (steady_trace f Hf). Qed.

Lemma preserves_call_jobstore {A} (alias : string) (op : StoreOp)
    (method : S -> S * result A) : preserves f (call_jobstore alias op method).
Proof.
  intros s. unfold call_jobstore.
  destruct (_jobstores s !! alias) as [st|] eqn:Hst; [|done].
  destruct (method st) as [st' r]. cbn [fst].
  rewrite (steady_trace f Hf). apply (steady_jobstore f Hf). by rewrite Hst.
Qed.

Lemma preserves_lookup_executor (alias : string) : preserves f (_lookup_executor alias).
Proof. intros s. unfold _lookup_executor. by destruct (_executors s !! alias). Qed.

Lemma preserves_call_executor {A} (alias : string) (op : ExecutorOp)
    (method : E -> E * result A) : preserves f (call_executor alias op method).
Proof.
  intros s. unfold call_executor, bind, _lookup_executor.
  destruct (_executors s !! alias) as [ex|] eqn:Hex; [|done].
  destruct (method ex) as [ex' r]. cbn [fst].
  rewrite (steady_trace f Hf). apply (steady_executor f Hf). by rewrite Hex.
Qed.

Lemma preserves_real_add_job job (jobstore : string) (wakeup : bool) :
  preserves f (_real_add_job job jobstore wakeup).
Proof.
  unfold _real_add_job. apply preserves_bind; [by intros s|]. intros now.
  apply preserves_bind.
  { intros s. destruct (_jobstores s !! jobstore); [|done].
    apply preserves_call_jobstore. }
  intros job'. apply preserves_bind; [apply preserves_emit|]. intros _.
  apply preserves_bind; [apply preserves_emit|]. intros _.
  apply preserves_bind; [|intros _; apply preserves_ret].
  destruct wakeup; [apply preserves_emit|apply preserves_ret].
Qed.

Lemma preserves_get_jobs (jobstore : option string) (pending : option bool) :
  preserves f (get_jobs jobstore pending).
Proof.
  intros s. unfold get_jobs. case_bool_decide; [|done].
  apply preserves_bind; [by intros s1|]. intros items.
  apply preserves_for_each. intros [alias st] jobs.
  apply preserves_bind; [apply preserves_call_jobstore|]. intros stored.
  apply preserves_ret.
Qed.
End Steady.

Lemma steady_core : steady (core (S := S) (E := E)).
Proof.
  split.
  - done.
  - intros alias st s Hin. unfold core. simpl. rewrite dom_insert_L.
    apply elem_of_dom in Hin. f_equal. apply subseteq_union_1_L.
    by apply singleton_subseteq_l.
  - intros alias ex s Hin. unfold core. simpl. rewrite dom_insert_L.
    apply elem_of_dom in Hin. do 2 f_equal. apply subseteq_union_1_L.
    by apply singleton_subseteq_l.
Qed.

Lemma steady_staging : steady (staging (S := S) (E := E)).
Proof. by split. Qed.

Lemma preserves_core_remove_job (job_id : option string) (alias : string) :
  preserves core (remove_job (E := E) job_id alias).
Proof.
  intros s. unfold remove_job.
  destruct (find_pending job_id (_pending_jobs s)) as [[i p]|]; [done|].
  apply preserves_bind.
  { intros s1. by destruct (_jobstores s1 !! alias). }
  intros _. apply preserves_bind; [apply preserves_call_jobstore, steady_core|]. intros _.
  apply preserves_bind; apply preserves_emit || (intros _; apply preserves_emit);
    apply steady_core.
Qed.

Lemma preserves_core_modify_job (job_id : option string) (alias : string) (changes : dict) :
  preserves core (modify_job (E := E) job_id alias changes).
Proof.
  intros s. unfold modify_job.
  destruct (find_pending job_id (_pending_jobs s)) as [[i [job store]]|].
  - by destruct (modify job changes).
  - apply preserves_bind.
    { intros s1. by destruct (_jobstores s1 !! alias). }
    intros _. apply preserves_bind; [apply preserves_call_jobstore, steady_core|].
    intros job. apply preserves_bind; [by intros s1|]. intros changes'.
    apply preserves_bind; [apply preserves_call_jobstore, steady_core|]. intros _.
    apply preserves_bind; [apply preserves_emit, steady_core|]. intros _.
    apply preserves_emit, steady_core.
Qed.

Lemma preserves_core_process_job now (alias : string) job (nw : option Time) :
  preserves core (process_job now alias job nw).
Proof.
  assert (Hlog : forall level msg, preserves core
            (bind (log (S := S) (E := E) level msg) (fun _ => ret nw))).
  { intros. apply preserves_bind; [apply preserves_emit, steady_core|].
    intros _. apply preserves_ret. }
  assert (Hremove : preserves core
            (bind (remove_job (E := E) (Job.id job) alias) (fun _ => ret nw))).
  { apply preserves_bind; [apply preserves_core_remove_job|].
    intros _. apply preserves_ret. }
  unfold process_job.
  apply preserves_bind; [apply preserves_attempt, preserves_lookup_executor|].
  intros [ex|e]; [|apply Hlog].
  destruct (nonempty _); [|apply preserves_ret].
  apply preserves_bind; [apply preserves_attempt, preserves_call_executor, steady_core|].
  intros [[]|e]; [|destruct e; apply Hlog].
  unfold update_or_remove.
  destruct (get_next_fire_time _ _); [|apply Hremove].
  destruct (runs_left _ _); [|apply Hremove].
  apply preserves_bind; [apply preserves_call_jobstore, steady_core|].
  intros _. apply preserves_ret.
Qed.

(** X15. The firing loop changes store and executor objects, the pending
    list and the trace only.  Whether it returns or raises, the scheduler is
    as stopped or running as before, the clock and the configured defaults
    are the same, and the same aliases are registered for executors and for
    stores. *)
Theorem firing_loop_keeps_lifecycle_and_registries s :
  let s' := (_process_jobs s).1 in
  _stopped s' = _stopped s /\
  clock s' = clock s /\
  misfire_grace_time s' = misfire_grace_time s /\
  coalesce s' = coalesce s /\
  timezone s' = timezone s /\
  dom (_executors s') = dom (_executors s) /\
  dom (_jobstores s') = dom (_jobstores s).
Proof.
  cbn zeta.
  assert (Hcore : preserves core (_process_jobs (S := S) (E := E))).
  { unfold _process_jobs.
    apply preserves_bind; [apply preserves_emit, steady_core|]. intros _.
    apply preserves_bind; [by intros s1|]. intros now.
    apply preserves_bind.
    { intros s1. apply preserves_for_each. intros alias nw. unfold process_jobstore.
      apply preserves_bind; [apply preserves_call_jobstore, steady_core|].
      intros [jobs t]. apply preserves_for_each. intros job nw'.
      apply preserves_core_process_job. }
    intros [t|].
    - apply preserves_bind; [apply preserves_emit, steady_core|]. intros _.
      apply preserves_bind; [apply preserves_emit, steady_core|]. intros _.
      apply preserves_ret.
    - apply preserves_bind; [apply preserves_emit, steady_core|]. intros _.
      apply preserves_ret. }
  specialize (Hcore s). unfold core in Hcore.
  injection Hcore as -> -> -> -> -> -> ->. done.
Qed.

(** ** [start] *)

Lemma preserves_eq {X A} (f : Sched -> X) (m : M S E A) s s1 (r : result A) :
  preserves f m -> m s = (s1, r) -> f s1 = f s.
Proof. intros Hm Heq. specialize (Hm s). by rewrite Heq in Hm. Qed.

(** If [m] leaves [f] alone and [k] does so whenever it raises, then
    [m] followed by [k] does so whenever it raises. *)
Lemma bind_raise_preserves {X A B} (f : Sched -> X) (m : M S E A) (k : A -> M S E B) :
  preserves f m ->
  (forall a s s' e, k a s = (s', Raise e) -> f s' = f s) ->
  forall s s' e, bind m k s = (s', Raise e) -> f s' = f s.
Proof.
  intros Hm Hk s s' e. unfold bind. specialize (Hm s).
  destruct (m s) as [s1 [a|e1]]; simpl in Hm.
  - intros Hka. rewrite (Hk a s1 s' e Hka). done.
  - intros [= <- _]. done.
Qed.

Lemma start_executors_loop {X} (f : Sched -> X) :
  steady f ->
  preserves f (fun s : Sched =>
    for_each (map_to_list (_executors s)).*1
      (fun alias (_ : unit) => call_executor alias start_call executor_start) tt s).
Proof.
  intros Hf s. apply preserves_for_each. intros alias [].
  by apply preserves_call_executor.
Qed.

Lemma start_pending_loop {X} (f : Sched -> X) :
  steady f ->
  preserves f (fun s : Sched =>
    for_each (_pending_jobs s)
      (fun '(job, jobstore) (_ : unit) =>
         bind (_real_add_job job jobstore false) (fun _ => ret tt)) tt s).
Proof.
  intros Hf s. apply preserves_for_each. intros [job jobstore] [].
  apply preserves_bind; [by apply preserves_real_add_job|].
  intros _. apply preserves_ret.
Qed.

Lemma preserves_staging_add_executor (executor : E) (alias : string) :
  preserves staging (add_executor (S := S) executor alias).
Proof.
  intros s. unfold add_executor. destruct (_executors s !! alias); [done|].
  destruct (running _); [|done].
  by rewrite (preserves_call_executor staging steady_staging).
Qed.

Lemma preserves_staging_add_jobstore (jobstore : S) (alias : string) (q : bool) :
  preserves staging (add_jobstore (E := E) jobstore alias q).
Proof.
  unfold add_jobstore. apply preserves_bind.
  { intros s. by destruct (_jobstores s !! alias). }
  intros _. apply preserves_bind; [apply preserves_emit, steady_staging|]. intros _ s.
  destruct (negb q && running s); [|done]. apply preserves_emit, steady_staging.
Qed.

(** The steps of [start] up to the flush of the pending list leave the
    lifecycle state, the clock, the configuration and the pending list as
    they are. *)
Lemma start_default_executor_staging :
  preserves staging (fun s : Sched =>
    match _executors s !! "default" with
    | None => add_executor create_default_executor "default" s
    | Some _ => (s, Ok tt)
    end).
Proof.
  intros s. destruct (_executors s !! "default"); [done|].
  apply preserves_staging_add_executor.
Qed.

Lemma start_default_jobstore_staging :
  preserves staging (fun s : Sched =>
    match _jobstores s !! "default" with
    | None => add_jobstore create_default_jobstore "default" true s
    | Some _ => (s, Ok tt)
    end).
Proof.
  intros s. destruct (_jobstores s !! "default"); [done|].
  apply preserves_staging_add_jobstore.
Qed.

(** A [start] that raises leaves the lifecycle flag, the pending list and
    the clock of the model as they are. *)
Lemma start_failure_staging s s' (e : exn) :
  start s = (s', Raise e) ->
  _stopped s' = _stopped s /\ _pending_jobs s' = _pending_jobs s /\
  clock s' = clock s.
Proof.
  intros Hstart.
  assert (Hstaging : staging s' = staging s).
  { revert s s' e Hstart. unfold start.
    apply bind_raise_preserves. { intros s. by destruct (running s). }
    intros _. apply bind_raise_preserves; [apply start_default_executor_staging|].
    intros _. apply bind_raise_preserves; [apply start_default_jobstore_staging|].
    intros _. apply bind_raise_preserves; [apply start_executors_loop, steady_staging|].
    intros _. apply bind_raise_preserves; [apply start_pending_loop, steady_staging|].
    intros _ s s' e. unfold bind, log, _notify_listeners, emit. simpl. done. }
  unfold staging in Hstaging. by injection Hstaging as -> -> _ _ _ ->.
Qed.

(** X3. When [start] raises, whether the scheduler was running already, an
    executor failed to start or a pending job could not be stored, the
    scheduler is as stopped or running as before and no entry has left the
    pending list, also not those of the jobs already handed to their store:
    the list has as many entries as before, for the same stores in the same
    order.  What the attempt did to the job objects of the entries (their
    [next_run_time], an id given by the store) is not stated. *)
Theorem start_failure_keeps_pending_jobs s s' (e : exn) :
  start s = (s', Raise e) ->
  _stopped s' = _stopped s /\
  (_pending_jobs s').*2 = (_pending_jobs s).*2.
Proof.
  intros Hstart. destruct (start_failure_staging s s' e Hstart) as (Hs & Hp & _).
  by rewrite Hp.
Qed.

Lemma bind_Ok_inv {A B} (m : M S E A) (k : A -> M S E B) s s' (b : B) :
  bind m k s = (s', Ok b) ->
  exists s1 a, m s = (s1, Ok a) /\ k a s1 = (s', Ok b).
Proof.
  unfold bind. destruct (m s) as [s1 [a|e]]; [|done]. intros Hk. by exists s1, a.
Qed.

(** The steps of a [start] that returns. *)
Lemma start_Ok_inv s s' :
  start s = (s', Ok tt) ->
  exists s1 s2 s3 s4 : Sched,
    running s = false /\
    match _executors s !! "default" with
    | None => add_executor create_default_executor "default" s
    | Some _ => (s, Ok tt)
    end = (s1, Ok tt) /\
    match _jobstores s1 !! "default" with
    | None => add_jobstore create_default_jobstore "default" true s1
    | Some _ => (s1, Ok tt)
    end = (s2, Ok tt) /\
    for_each (map_to_list (_executors s2)).*1
      (fun alias (_ : unit) => call_executor alias start_call executor_start) tt s2
      = (s3, Ok tt) /\
    for_each (_pending_jobs s3)
      (fun '(job, jobstore) (_ : unit) =>
         bind (_real_add_job job jobstore false) (fun _ => ret tt)) tt s3
      = (s4, Ok tt) /\
    s' = set_trace
           (trace s4 ++ [Log INFO "Scheduler started";
                         Notify (SchedulerEvent EVENT_SCHEDULER_START)])
           (set_stopped false (set_pending_jobs [] s4)).
Proof.
  unfold start. intros Hstart.
  apply bind_Ok_inv in Hstart as (s0 & [] & H1 & Hstart).
  destruct (running s) eqn:Hrun; [done|]. injection H1 as <-.
  apply bind_Ok_inv in Hstart as (s1 & [] & H2 & Hstart).
  apply bind_Ok_inv in Hstart as (s2 & [] & H3 & Hstart).
  apply bind_Ok_inv in Hstart as (s3 & [] & H4 & Hstart).
  apply bind_Ok_inv in Hstart as (s4 & [] & H5 & Hstart).
  exists s1, s2, s3, s4. repeat (split; [done|]).
  unfold bind, log, _notify_listeners, emit in Hstart. simpl in Hstart.
  injection Hstart as <-. by rewrite <- app_assoc.
Qed.

Lemma start_default_executor_Ok s s1 :
  match _executors s !! "default" with
  | None => add_executor create_default_executor "default" s
  | Some _ => (s, Ok tt)
  end = (s1, Ok tt) ->
  "default" ∈ dom (_executors s1) /\ dom (_executors s) ⊆ dom (_executors s1) /\
  _jobstores s1 = _jobstores s /\ store_adds (trace s1) = store_adds (trace s).
Proof.
  destruct (_executors s !! "default") as [ex|] eqn:Hex.
  - intros [= <-]. split; [by apply elem_of_dom_2 in Hex|done].
  - unfold add_executor. rewrite Hex.
    destruct (running _).
    + unfold call_executor, bind, _lookup_executor. simpl. rewrite lookup_insert_eq.
      destruct (executor_start _) as [ex' r]. simpl. intros [= <- _]. simpl.
      rewrite !dom_insert_L. unfold store_adds. rewrite omap_app. simpl.
      rewrite app_nil_r. repeat split; set_solver.
    + intros [= <-]. simpl. rewrite dom_insert_L. repeat split; set_solver.
Qed.

Lemma start_default_jobstore_Ok s s1 :
  match _jobstores s !! "default" with
  | None => add_jobstore create_default_jobstore "default" true s
  | Some _ => (s, Ok tt)
  end = (s1, Ok tt) ->
  "default" ∈ dom (_jobstores s1) /\ dom (_jobstores s) ⊆ dom (_jobstores s1) /\
  _executors s1 = _executors s /\ store_adds (trace s1) = store_adds (trace s).
Proof.
  destruct (_jobstores s !! "default") as [st|] eqn:Hst.
  - intros [= <-]. split; [by apply elem_of_dom_2 in Hst|done].
  - unfold add_jobstore, bind, _notify_listeners, emit. rewrite Hst. simpl.
    intros [= <-]. simpl. rewrite dom_insert_L. unfold store_adds. rewrite omap_app.
    simpl. rewrite app_nil_r. repeat split; set_solver.
Qed.

(** X1. When [start] returns, the scheduler runs and nothing is pending; an
    executor and a store are registered as [default], and every alias
    registered before still is.  A second [start] raises
    [SchedulerAlreadyRunningError] and changes nothing, and [get_jobs] with
    [pending=True] returns the empty list for every store alias. *)
Theorem start_makes_scheduler_ready s s' :
  start s = (s', Ok tt) ->
  _stopped s' = false /\ _pending_jobs s' = [] /\
  is_Some (_executors s' !! "default") /\ is_Some (_jobstores s' !! "default") /\
  dom (_executors s) ⊆ dom (_executors s') /\
  dom (_jobstores s) ⊆ dom (_jobstores s') /\
  start s' = (s', Raise SchedulerAlreadyRunningError) /\
  (forall jobstore, get_jobs jobstore (Some true) s' = (s', Ok [])).
Proof.
  intros Hstart.
  apply start_Ok_inv in Hstart as (s1 & s2 & s3 & s4 & _ & H2 & H3 & H4 & H5 & ->).
  apply start_default_executor_Ok in H2 as (He1 & Hsub1 & Hj1 & _).
  apply start_default_jobstore_Ok in H3 as (Hj2 & Hsub2 & He2 & _).
  pose proof (preserves_eq core _ _ _ _ (start_executors_loop core steady_core) H4) as Hc3.
  pose proof (preserves_eq core _ _ _ _ (start_pending_loop core steady_core) H5) as Hc4.
  unfold core in Hc3, Hc4.
  injection Hc3 as _ _ _ _ _ He3 Hj3. injection Hc4 as _ _ _ _ _ He4 Hj4.
  rewrite He2 in He3. rewrite Hj1 in Hsub2.
  split; [done|]. split; [done|].
  split. { apply elem_of_dom. simpl. rewrite He4, He3. done. }
  split. { apply elem_of_dom. simpl. rewrite Hj4, Hj3. done. }
  split. { simpl. rewrite He4, He3. done. }
  split. { simpl. rewrite Hj4, Hj3. done. }
  split; [done|].
  intros jobstore. unfold get_jobs. simpl. done.
Qed.

Lemma store_adds_app (tr1 tr2 : list Effect) :
  store_adds (tr1 ++ tr2) = store_adds tr1 ++ store_adds tr2.
Proof. apply omap_app. Qed.

(** A [_real_add_job] that returns has called [add_job] of the store named,
    once, with the job whose [next_run_time] is the trigger's fire time at
    the current time. *)
Lemma real_add_job_Ok job (jobstore : string) (wakeup : bool) s s' (job' : Job.t) :
  _real_add_job job jobstore wakeup s = (s', Ok job') ->
  store_adds (trace s') =
    store_adds (trace s)
      ++ [(jobstore,
           Job.set_next_run_time (get_next_fire_time (Job.trigger job) (clock s)) job)].
Proof.
  unfold _real_add_job, bind, datetime_now, call_jobstore, _notify_listeners, log,
    _wakeup, emit, ret.
  destruct (_jobstores s !! jobstore) as [st|]; [|done].
  destruct (store_add_job st _) as [st' [stored|e]]; [|done].
  destruct wakeup; simpl; intros [= <- _]; simpl;
    rewrite !store_adds_app; simpl; by rewrite !app_nil_r.
Qed.

Lemma start_pending_loop_adds (pending : list (Job.t * string)) s s' :
  for_each pending
    (fun '(job, jobstore) (_ : unit) =>
       bind (_real_add_job job jobstore false) (fun _ => ret tt)) tt s
    = (s', Ok tt) ->
  store_adds (trace s') =
    store_adds (trace s)
      ++ map (fun p => (p.2, Job.set_next_run_time
                               (get_next_fire_time (Job.trigger p.1) (clock s)) p.1))
             pending.
Proof.
  revert s. induction pending as [|[job jobstore] pending IH]; intros s; simpl.
  - intros [= <-]. by rewrite app_nil_r.
  - intros Hloop. apply bind_Ok_inv in Hloop as (s1 & [] & Hadd & Hloop).
    apply bind_Ok_inv in Hadd as (s1' & job' & Hadd & [= <-]).
    pose proof (preserves_eq staging _ _ _ _
                  (preserves_real_add_job staging steady_staging job jobstore false) Hadd)
      as Hst.
    assert (Hclock : clock s1' = clock s) by (unfold staging in Hst; congruence).
    apply real_add_job_Ok in Hadd. apply IH in Hloop.
    rewrite Hloop, Hadd, Hclock, <- app_assoc. done.
Qed.

Lemma start_executors_loop_adds (aliases : list string) s s' (r : result unit) :
  for_each aliases
    (fun alias (_ : unit) => call_executor alias start_call executor_start) tt s
    = (s', r) ->
  store_adds (trace s') = store_adds (trace s).
Proof.
  intros Hloop.
  assert (Hp : preserves (fun s : Sched => store_adds (trace s))
                 (for_each aliases
                    (fun alias (_ : unit) =>
                       call_executor alias start_call executor_start) tt)).
  { apply preserves_for_each. intros alias [] s1.
    unfold call_executor, bind, _lookup_executor.
    destruct (_executors s1 !! alias) as [ex|]; [|done].
    destruct (executor_start ex) as [ex' r']. simpl.
    rewrite store_adds_app. simpl. by rewrite app_nil_r. }
  specialize (Hp s). by rewrite Hloop in Hp.
Qed.

(** X2. A [start] that returns has handed every pending job to the store
    it was destined for, in the order in which the jobs were added, each
    with [next_run_time] set to the first fire time of its trigger from the
    current time on; it makes no other call of a store's [add_job]. *)
Theorem start_stores_pending_jobs_in_order s s' :
  start s = (s', Ok tt) ->
  store_adds (trace s') =
    store_adds (trace s)
      ++ map (fun p => (p.2, Job.set_next_run_time
                               (get_next_fire_time (Job.trigger p.1) (clock s)) p.1))
             (_pending_jobs s).
Proof.
  intros Hstart.
  apply start_Ok_inv in Hstart as (s1 & s2 & s3 & s4 & _ & H2 & H3 & H4 & H5 & ->).
  pose proof (preserves_eq staging _ _ _ _ start_default_executor_staging H2) as Hs1.
  pose proof (preserves_eq staging _ _ _ _ start_default_jobstore_staging H3) as Hs2.
  pose proof (preserves_eq staging _ _ _ _
                (start_executors_loop staging steady_staging) H4) as Hs3.
  apply start_default_executor_Ok in H2 as (_ & _ & _ & Ha1).
  apply start_default_jobstore_Ok in H3 as (_ & _ & _ & Ha2).
  apply start_executors_loop_adds in H4 as Ha3.
  apply start_pending_loop_adds in H5 as Ha4.
  unfold staging in Hs1, Hs2, Hs3.
  injection Hs1 as _ Hc1 _ _ _ Hp1. injection Hs2 as _ Hc2 _ _ _ Hp2.
  injection Hs3 as _ Hc3 _ _ _ Hp3.
  simpl. rewrite store_adds_app. simpl. rewrite app_nil_r.
  rewrite Ha4, Ha3, Ha2, Ha1, Hc3, Hc2, Hc1, Hp3, Hp2, Hp1. done.
Qed.

(** ** [shutdown] *)

Lemma executors_loop_Ok (op : ExecutorOp) (method : E -> E * result unit)
    (aliases : list string) s s' :
  for_each aliases (fun alias (_ : unit) => call_executor alias op method) tt s
    = (s', Ok tt) ->
  trace s' = trace s ++ map (fun alias => ExecutorCall alias op None) aliases /\
  _jobstores s' = _jobstores s.
Proof.
  revert s. induction aliases as [|alias aliases IH]; intros s; simpl.
  - intros [= <-]. by rewrite app_nil_r.
  - intros Hloop. apply bind_Ok_inv in Hloop as (s1 & [] & Hcall & Hloop).
    apply IH in Hloop as [Htrace Hstores]. rewrite Htrace, Hstores.
    revert Hcall. unfold call_executor, bind, _lookup_executor.
    destruct (_executors s !! alias) as [ex|]; [|done].
    destruct (method ex) as [ex' [a|e]]; [|done].
    simpl. intros [= <-]. simpl. by rewrite <- app_assoc.
Qed.

Lemma jobstores_loop_Ok (op : StoreOp) (method : S -> S * result unit)
    (aliases : list string) s s' :
  for_each aliases (fun alias (_ : unit) => call_jobstore alias op method) tt s
    = (s', Ok tt) ->
  trace s' = trace s ++ map (fun alias => StoreCall alias op None) aliases.
Proof.
  revert s. induction aliases as [|alias aliases IH]; intros s; simpl.
  - intros [= <-]. by rewrite app_nil_r.
  - intros Hloop. apply bind_Ok_inv in Hloop as (s1 & [] & Hcall & Hloop).
    apply IH in Hloop as Htrace. rewrite Htrace.
    revert Hcall. unfold call_jobstore.
    destruct (_jobstores s !! alias) as [st|]; [|done].
    destruct (method st) as [st' [a|e]]; [|done].
    simpl. intros [= <-]. simpl. by rewrite <- app_assoc.
Qed.

(** X4. A [shutdown(wait)] that returns has called [shutdown(wait)] of every
    executor, then [close] of every store (each registry in the order in
    which it is iterated), then logged and emitted
    [EVENT_SCHEDULER_SHUTDOWN], and nothing else, in this order. *)
Theorem shutdown_stops_executors_then_closes_stores (wait : bool) s s' :
  shutdown wait s = (s', Ok tt) ->
  trace s' =
    trace s
      ++ map (fun alias => ExecutorCall alias (shutdown_call wait) None)
             (map_to_list (_executors s)).*1
      ++ map (fun alias => StoreCall alias close_call None)
             (map_to_list (_jobstores s)).*1
      ++ [Log INFO "Scheduler has been shut down";
          Notify (SchedulerEvent EVENT_SCHEDULER_SHUTDOWN)].
Proof.
  unfold shutdown. intros Hdown.
  apply bind_Ok_inv in Hdown as (s0 & [] & H1 & Hdown).
  destruct (running s); [|done]. injection H1 as <-.
  apply bind_Ok_inv in Hdown as (s0 & [] & [= <-] & Hdown).
  apply bind_Ok_inv in Hdown as (s1 & [] & H2 & Hdown).
  apply bind_Ok_inv in Hdown as (s2 & [] & H3 & Hdown).
  apply executors_loop_Ok in H2 as [Ht1 Hj1].
  apply jobstores_loop_Ok in H3 as Ht2.
  unfold bind, log, _notify_listeners, emit in Hdown. simpl in Hdown.
  injection Hdown as <-. simpl in *.
  rewrite Ht2, Ht1, Hj1, <- !app_assoc. done.
Qed.

Lemma events_app (tr1 tr2 : list Effect) :
  events (tr1 ++ tr2) = events tr1 ++ events tr2.
Proof. apply omap_app. Qed.

Lemma preserves_events_call_executor {A} (alias : string) (op : ExecutorOp)
    (method : E -> E * result A) :
  preserves (fun s : Sched => events (trace s)) (call_executor alias op method).
Proof.
  intros s. unfold call_executor, bind, _lookup_executor.
  destruct (_executors s !! alias) as [ex|]; [|done].
  destruct (method ex) as [ex' r]. simpl. rewrite events_app. simpl. apply app_nil_r.
Qed.

Lemma preserves_events_call_jobstore {A} (alias : string) (op : StoreOp)
    (method : S -> S * result A) :
  preserves (fun s : Sched => events (trace s)) (call_jobstore (E := E) alias op method).
Proof.
  intros s. unfold call_jobstore.
  destruct (_jobstores s !! alias) as [st|]; [|done].
  destruct (method st) as [st' r]. simpl. rewrite events_app. simpl. apply app_nil_r.
Qed.

Lemma shutdown_failure_emits_nothing (wait : bool) s s' (e : exn) :
  shutdown wait s = (s', Raise e) -> events (trace s') = events (trace s).
Proof.
  revert s s' e. unfold shutdown.
  apply (bind_raise_preserves (fun s : Sched => events (trace s))).
  { intros s. by destruct (running s). }
  intros _. apply (bind_raise_preserves (fun s : Sched => events (trace s)));
    [by intros s|].
  intros _. apply (bind_raise_preserves (fun s : Sched => events (trace s))).
  { intros s. apply (preserves_for_each (fun s : Sched => events (trace s))).
    intros alias []. apply preserves_events_call_executor. }
  intros _. apply (bind_raise_preserves (fun s : Sched => events (trace s))).
  { intros s. apply (preserves_for_each (fun s : Sched => events (trace s))).
    intros alias []. apply preserves_events_call_jobstore. }
  intros _ s s' e. unfold bind, log, _notify_listeners, emit. simpl. done.
Qed.

(** X5. When [shutdown] of a running scheduler raises, because the
    [shutdown] of an executor or the [close] of a store did, the scheduler
    is stopped all the same and [EVENT_SCHEDULER_SHUTDOWN] is not emitted.
    Calling [shutdown] again on the scheduler as it is then raises
    [SchedulerNotRunningError] and changes nothing: it does not reach the
    executors and stores that the failed call left out. *)
Theorem shutdown_failure_leaves_scheduler_stopped (wait : bool) s s' (e : exn) :
  running s = true ->
  shutdown wait s = (s', Raise e) ->
  _stopped s' = true /\
  events (trace s') = events (trace s) /\
  (forall wait', shutdown wait' s' = (s', Raise SchedulerNotRunningError)).
Proof.
  intros Hrun Hdown.
  assert (Hstopped : _stopped s' = true).
  { pose proof (shutdown_stops wait s Hrun) as Hs. by rewrite Hdown in Hs. }
  split; [done|]. split; [by apply (shutdown_failure_emits_nothing wait s s' e)|].
  intros wait'. unfold shutdown, bind, running. by rewrite Hstopped.
Qed.

(** ** The registries of executors and stores *)

(** X6. [add_executor] never replaces an executor: for an alias in use it
    raises [KeyError] and changes nothing.  For a free alias it registers
    the executor and, if the scheduler runs, starts it at once; an executor
    whose [start] raises stays registered, as [start] left it. *)
Theorem add_executor_registers_once (executor : E) (alias : string) s :
  (is_Some (_executors s !! alias) ->
   add_executor executor alias s =
     (s, Raise (KeyError "This scheduler already has an executor by the alias of '%s'"))) /\
  (_executors s !! alias = None ->
   add_executor executor alias s =
     if running s
     then (set_trace
             (trace s ++ [ExecutorCall alias start_call
                            (raised (executor_start executor).2)])
             (set_executors (<[alias := (executor_start executor).1]> (_executors s)) s),
           (executor_start executor).2)
     else (set_executors (<[alias := executor]> (_executors s)) s, Ok tt)).
Proof.
  split.
  - intros [ex Hex]. unfold add_executor. by rewrite Hex.
  - intros Hex. unfold add_executor. rewrite Hex.
    change (running (set_executors (<[alias:=executor]> (_executors s)) s))
      with (running s).
    destruct (running s); [|done].
    unfold call_executor, bind, _lookup_executor. simpl. rewrite lookup_insert_eq.
    destruct (executor_start executor) as [ex' r]. simpl.
    by rewrite insert_insert_eq.
Qed.

(** X7. [add_jobstore] never replaces a store: for an alias in use it raises
    [KeyError], emits nothing and changes nothing.  For a free alias it
    registers the store and emits [EVENT_JOBSTORE_ADDED]; it requests a
    wakeup exactly if the scheduler runs and [quiet] is false.  The store
    itself is not called. *)
Theorem add_jobstore_registers_once (jobstore : S) (alias : string) (quiet : bool) s :
  (is_Some (_jobstores s !! alias) ->
   add_jobstore jobstore alias quiet s =
     (s, Raise (KeyError "Alias '%s' is already in use"))) /\
  (_jobstores s !! alias = None ->
   add_jobstore jobstore alias quiet s =
     (set_trace
        (trace s ++ Notify (JobStoreEvent EVENT_JOBSTORE_ADDED alias None)
                 :: (if negb quiet && running s then [Wakeup] else []))
        (set_jobstores (<[alias := jobstore]> (_jobstores s)) s),
      Ok tt)).
Proof.
  split.
  - intros [st Hst]. unfold add_jobstore, bind. by rewrite Hst.
  - intros Hst. unfold add_jobstore, bind, _notify_listeners, _wakeup, emit.
    rewrite Hst. simpl. unfold running. simpl.
    destruct (negb quiet && negb (_stopped s)); simpl; [|done].
    by rewrite <- app_assoc.
Qed.

Lemma store_calls_app (tr1 tr2 : list Effect) :
  store_calls (tr1 ++ tr2) = store_calls tr1 ++ store_calls tr2.
Proof. apply omap_app. Qed.

(** X8. [remove_jobstore] for an alias that is not registered raises
    [KeyError] and changes nothing.  For a registered alias the store leaves
    the registry before it is closed: if [close] raises, the exception gets
    out of [remove_jobstore], the store is gone from the registry all the
    same, and [EVENT_JOBSTORE_REMOVED] is not emitted.  Otherwise the event
    is emitted and the method returns. *)
Theorem remove_jobstore_unregisters_before_close (alias : string) (close : bool) s :
  (_jobstores s !! alias = None ->
   remove_jobstore alias close s = (s, Raise (KeyError alias))) /\
  (forall st : S, _jobstores s !! alias = Some st ->
     let s' := (remove_jobstore alias close s).1 in
     _jobstores s' = delete alias (_jobstores s) /\
     (forall e, close = true -> (store_close st).2 = Raise e ->
        (remove_jobstore alias close s).2 = Raise e /\
        events (trace s') = events (trace s)) /\
     (close = false \/ (store_close st).2 = Ok tt ->
        (remove_jobstore alias close s).2 = Ok tt /\
        events (trace s') =
          events (trace s) ++ [JobStoreEvent EVENT_JOBSTORE_REMOVED alias None])).
Proof.
  split.
  - intros Hst. unfold remove_jobstore. by rewrite Hst.
  - intros st Hst. cbn zeta. unfold remove_jobstore. rewrite Hst.
    unfold bind, _notify_listeners, emit, ret.
    destruct close.
    + destruct (store_close st) as [st' [[]|e]]; simpl.
      * split; [done|]. split; [done|]. intros _.
        rewrite !events_app. simpl. by rewrite app_nil_r.
      * split; [done|]. split; [|by intros [|]].
        intros e' _ [= <-]. rewrite events_app. simpl. by rewrite app_nil_r.
    + simpl. split; [done|]. split; [done|]. intros _. by rewrite events_app.
Qed.

(** X9. Registering a store under a free alias and removing it again without
    closing it gives back the registry as it was; the two events are
    emitted, and no method of a store is called on the way. *)
Theorem add_then_remove_jobstore (jobstore : S) (alias : string) (quiet : bool) s :
  _jobstores s !! alias = None ->
  let s1 := (add_jobstore jobstore alias quiet s).1 in
  let s2 := (remove_jobstore alias false s1).1 in
  (remove_jobstore alias false s1).2 = Ok tt /\
  _jobstores s2 = _jobstores s /\
  _executors s2 = _executors s /\
  _pending_jobs s2 = _pending_jobs s /\
  _stopped s2 = _stopped s /\
  events (trace s2) =
    events (trace s) ++ [JobStoreEvent EVENT_JOBSTORE_ADDED alias None;
                         JobStoreEvent EVENT_JOBSTORE_REMOVED alias None] /\
  store_calls (trace s2) = store_calls (trace s).
Proof.
  intros Hst. cbn zeta.
  destruct (add_jobstore_registers_once jobstore alias quiet s) as [_ Hadd].
  rewrite (Hadd Hst). cbn [fst].
  unfold remove_jobstore. cbn [_jobstores set_trace set_jobstores].
  rewrite lookup_insert_eq.
  unfold bind, _notify_listeners, emit, ret. simpl.
  rewrite (delete_insert_id _ _ _ Hst).
  repeat (split; [done|]).
  split.
  - rewrite !events_app. simpl.
    destruct (negb quiet && running s); simpl; by rewrite <- app_assoc.
  - rewrite !store_calls_app. simpl.
    destruct (negb quiet && running s); simpl; by rewrite !app_nil_r.
Qed.

(** ** Adding, removing and modifying jobs *)

Lemma job_init_id (a : add_job_args) s : Job.id (Job.init (job_kwargs a s)) = arg_id a.
Proof. unfold job_kwargs. by destruct (arg_trigger a). Qed.

(** X10. While the scheduler is stopped, [add_job] followed by [remove_job]
    for the id given to [add_job] puts the pending list back as it was, if
    no job pending before has that id; whatever store alias is given to
    [remove_job], no store is called and no event is emitted.  What is left
    is the log record of [add_job]. *)
Theorem add_job_then_remove_job_while_stopped (a : add_job_args) (jobstore : string) s :
  running s = false ->
  find_pending (arg_id a) (_pending_jobs s) = None ->
  remove_job (arg_id a) jobstore (add_job a s).1 =
    (set_trace
       (trace s ++ [Log INFO
          "Adding job tentatively -- it will be properly scheduled when the scheduler starts"])
       s,
     Ok tt).
Proof.
  intros Hrun Hfind. unfold add_job. rewrite Hrun. simpl.
  unfold remove_job, find_pending. simpl.
  unfold find_pending in Hfind. rewrite (list_find_app_r _ _ _ Hfind). simpl.
  rewrite decide_True by apply job_init_id. simpl.
  replace (0 + length (_pending_jobs s))%nat with (length (_pending_jobs s)) by lia.
  rewrite delete_middle, app_nil_r. by destruct s.
Qed.

(** X11. On a running scheduler [add_job] for a store alias that is not
    registered raises [KeyError]; nothing is stored, logged or emitted, and
    no wakeup is requested: the scheduler is as before. *)
Theorem add_job_to_unknown_store_raises (a : add_job_args) s :
  running s = true ->
  _jobstores s !! arg_jobstore a = None ->
  add_job a s = (s, Raise (KeyError "No such job store: %s")).
Proof.
  intros Hrun Hst. unfold add_job. rewrite Hrun. simpl.
  unfold bind, _real_add_job, bind, datetime_now. by rewrite Hst.
Qed.

Lemma wakeups_app (tr1 tr2 : list Effect) :
  wakeups (tr1 ++ tr2) = (wakeups tr1 + wakeups tr2)%nat.
Proof. unfold wakeups. by rewrite List.filter_app, length_app. Qed.

Lemma preserves_notices_call_jobstore {A} (alias : string) (op : StoreOp)
    (method : S -> S * result A) :
  preserves (fun s : Sched => (events (trace s), wakeups (trace s)))
    (call_jobstore (E := E) alias op method).
Proof.
  intros s. unfold call_jobstore.
  destruct (_jobstores s !! alias) as [st|]; [|done].
  destruct (method st) as [st' r]. simpl.
  rewrite events_app, wakeups_app. simpl. by rewrite app_nil_r, Nat.add_0_r.
Qed.

(** X12. [remove_job] and [modify_job] notify only of what was done.  When
    either raises (the store alias is not registered, the job is not found,
    the changes are rejected, the store fails), no event has been emitted
    and no wakeup requested; a failed [remove_job] also leaves the pending
    list as it is. *)
Theorem failed_mutation_notifies_nobody
    (job_id : option string) (jobstore : string) (changes : dict) s s' (e : exn) :
  (remove_job job_id jobstore s = (s', Raise e) ->
   events (trace s') = events (trace s) /\ wakeups (trace s') = wakeups (trace s) /\
   _pending_jobs s' = _pending_jobs s) /\
  (modify_job job_id jobstore changes s = (s', Raise e) ->
   events (trace s') = events (trace s) /\ wakeups (trace s') = wakeups (trace s)).
Proof.
  split.
  - unfold remove_job.
    destruct (find_pending job_id (_pending_jobs s)) as [[i p]|]; [done|].
    intros Hraise.
    assert (Hn : (events (trace s'), wakeups (trace s'), _pending_jobs s')
                 = (events (trace s), wakeups (trace s), _pending_jobs s)).
    { revert s s' e Hraise.
      apply (bind_raise_preserves
               (fun s : Sched => (events (trace s), wakeups (trace s), _pending_jobs s))).
      { intros s. by destruct (_jobstores s !! jobstore). }
      intros _.
      apply (bind_raise_preserves
               (fun s : Sched => (events (trace s), wakeups (trace s), _pending_jobs s))).
      - intros s. unfold call_jobstore.
        destruct (_jobstores s !! jobstore) as [st|]; [|done].
        destruct (store_remove_job st job_id) as [st' r]. simpl.
        rewrite events_app, wakeups_app. simpl. by rewrite app_nil_r, Nat.add_0_r.
      - intros _ s s' e. unfold bind, _notify_listeners, log, emit. simpl. done. }
    by injection Hn as -> -> ->.
  - unfold modify_job.
    destruct (find_pending job_id (_pending_jobs s)) as [[i [job store]]|].
    { destruct (modify job changes) as [job' r]. by intros [= <- _]. }
    intros Hraise.
    assert (Hn : (events (trace s'), wakeups (trace s'))
                 = (events (trace s), wakeups (trace s))).
    { revert s s' e Hraise.
      apply (bind_raise_preserves
               (fun s : Sched => (events (trace s), wakeups (trace s)))).
      { intros s. by destruct (_jobstores s !! jobstore). }
      intros _. apply (bind_raise_preserves
               (fun s : Sched => (events (trace s), wakeups (trace s))));
        [apply preserves_notices_call_jobstore|].
      intros job. apply (bind_raise_preserves
               (fun s : Sched => (events (trace s), wakeups (trace s))));
        [by intros s|].
      intros changes'. apply (bind_raise_preserves
               (fun s : Sched => (events (trace s), wakeups (trace s))));
        [apply preserves_notices_call_jobstore|].
      intros _ s s' e. unfold bind, _notify_listeners, _wakeup, emit. simpl. done. }
    by injection Hn as -> ->.
Qed.

(** X13. When the change set of [modify_job] has an [id], the job that
    validates the changes is looked up under that new id, not under
    [job_id]: if the store has no job under the new id, [modify_job] ends
    with the exception of the lookup and nothing is modified.  When the
    lookup succeeds, the store is then asked to modify the job [job_id] with
    the changes that the job found under the new id let pass. *)
Theorem modify_job_looks_up_the_new_id
    (job_id : option string) (new_id : string) (jobstore : string) (changes : dict)
    s (st : S) :
  find_pending job_id (_pending_jobs s) = None ->
  _jobstores s !! jobstore = Some st ->
  changes !! "id" = Some (VStr new_id) ->
  (forall e, (store_lookup_job st (Some new_id)).2 = Raise e ->
     modify_job job_id jobstore changes s =
       (set_trace
          (trace s ++ [StoreCall jobstore (lookup_job_call (Some new_id)) (Some e)])
          (set_jobstores
             (<[jobstore := (store_lookup_job st (Some new_id)).1]> (_jobstores s)) s),
        Raise e)) /\
  (forall job changes',
     (store_lookup_job st (Some new_id)).2 = Ok job ->
     validate_changes job changes = Ok changes' ->
     store_calls (trace (modify_job job_id jobstore changes s).1) =
       store_calls (trace s)
         ++ [(jobstore, lookup_job_call (Some new_id));
             (jobstore, modify_job_call job_id changes')]).
Proof.
  intros Hpend Hst Hid. split.
  - intros e Hlookup. unfold modify_job. rewrite Hpend.
    unfold bind, call_jobstore. rewrite Hst, Hid. simpl. rewrite Hst.
    destruct (store_lookup_job st (Some new_id)) as [st1 r]. simpl in *.
    by rewrite Hlookup.
  - intros job changes' Hlookup Hvalid. unfold modify_job. rewrite Hpend.
    unfold bind, call_jobstore, _notify_listeners, _wakeup, emit.
    rewrite Hst, Hid. simpl. rewrite Hst.
    destruct (store_lookup_job st (Some new_id)) as [st1 r]. simpl in *.
    rewrite Hlookup, Hvalid. simpl. rewrite lookup_insert_eq.
    destruct (store_modify_job st1 job_id changes') as [st2 [[]|e]]; simpl;
      rewrite !store_calls_app; simpl; by rewrite ?app_nil_r, <- ?app_assoc.
Qed.

(** ** More on the firing loop *)

(** X16. The firing loop touches a due job in its store only after a
    successful submission.  If the job's executor is not registered, if the
    job has no run time to submit, or if [submit_job] raises, whatever the
    exception, the loop body returns with the wakeup time it was given; no
    store method is called, no event is emitted, and stores and pending list
    are as before. *)
Theorem job_state_advances_only_after_submission
    now (jobstore_alias : string) job (next_wakeup_time : option Time) s :
  (forall ex : E,
     _executors s !! Job.executor job = Some ex ->
     nonempty (coalesced job (get_run_times job now)) = true ->
     (executor_submit_job ex job (coalesced job (get_run_times job now))).2 <> Ok tt) ->
  let out := process_job now jobstore_alias job next_wakeup_time s in
  out.2 = Ok next_wakeup_time /\
  _jobstores out.1 = _jobstores s /\
  _pending_jobs out.1 = _pending_jobs s /\
  store_calls (trace out.1) = store_calls (trace s) /\
  events (trace out.1) = events (trace s).
Proof.
  intros Hfail. cbn zeta.
  destruct (_executors s !! Job.executor job) as [ex|] eqn:Hex.
  - destruct (nonempty (coalesced job (get_run_times job now))) eqn:Hne.
    + rewrite (process_job_unfold _ _ _ _ _ _ Hex Hne). cbn zeta.
      specialize (Hfail ex eq_refl eq_refl). unfold after_submit.
      destruct ((executor_submit_job ex job _).2) as [[]|e]; [done|].
      destruct e; simpl;
        rewrite !store_calls_app, !events_app; simpl; by rewrite !app_nil_r.
    + unfold process_job, bind, attempt, _lookup_executor. rewrite Hex, Hne. done.
  - unfold process_job, bind, attempt, _lookup_executor, log, emit. rewrite Hex.
    simpl. rewrite store_calls_app, events_app. simpl. by rewrite !app_nil_r.
Qed.

Lemma no_later_refl (w : option Time) : no_later w w.
Proof. destruct w as [w|]; simpl; [|done]. exists w. split; [done|lia]. Qed.

Lemma no_later_trans (a b c : option Time) :
  no_later a b -> no_later b c -> no_later a c.
Proof.
  destruct a as [a|]; simpl; [|done].
  intros (b' & -> & Hb). simpl. intros (c' & -> & Hc). exists c'. split; [done|lia].
Qed.

Lemma no_later_earlier (w : option Time) (t : Time) : no_later w (Some (earlier w t)).
Proof.
  destruct w as [w|]; simpl; [|done]. exists (Z.min w t). split; [done|lia].
Qed.

Lemma process_job_no_later now (alias : string) job (nw : option Time) s s'
    (r : option Time) :
  process_job now alias job nw s = (s', Ok r) -> no_later nw r.
Proof.
  assert (Hlog : forall level msg s1,
            bind (log (S := S) (E := E) level msg) (fun _ => ret nw) s1 = (s', Ok r) ->
            no_later nw r).
  { intros level msg s1. unfold bind, log, emit, ret. simpl. intros [= _ <-].
    apply no_later_refl. }
  assert (Hremove : forall s1,
            bind (remove_job (E := E) (Job.id job) alias) (fun _ => ret nw) s1
              = (s', Ok r) -> no_later nw r).
  { intros s1 Hr. apply bind_Ok_inv in Hr as (s2 & [] & _ & [= _ <-]).
    apply no_later_refl. }
  unfold process_job. intros Hjob.
  apply bind_Ok_inv in Hjob as (s1 & looked & _ & Hjob).
  destruct looked as [ex|e]; [|by apply Hlog in Hjob].
  destruct (nonempty _); [|injection Hjob as _ <-; apply no_later_refl].
  apply bind_Ok_inv in Hjob as (s2 & submitted & _ & Hjob).
  destruct submitted as [[]|e]; [|destruct e; by apply Hlog in Hjob].
  unfold update_or_remove in Hjob.
  destruct (get_next_fire_time _ _) as [t|]; [|by apply Hremove in Hjob].
  destruct (runs_left _ _); [|by apply Hremove in Hjob].
  apply bind_Ok_inv in Hjob as (s3 & [] & _ & [= _ <-]).
  apply no_later_earlier.
Qed.

(** X17. Within a pass of the firing loop the wakeup time only moves
    earlier.  Processing a store with a wakeup time [w] already found gives
    a wakeup time that is there and not later than [w], whatever the store
    reports and whatever happens to its due jobs. *)
Theorem wakeup_time_only_moves_earlier
    now (jobstore_alias : string) (next_wakeup_time : option Time) s s'
    (r : option Time) :
  process_jobstore now jobstore_alias next_wakeup_time s = (s', Ok r) ->
  no_later next_wakeup_time r.
Proof.
  unfold process_jobstore. intros Hstore.
  apply bind_Ok_inv in Hstore as (s1 & [jobs t] & _ & Hloop).
  cbn zeta in Hloop.
  remember (match next_wakeup_time with
            | Some w => match t with
                        | Some t => Some (Z.min w t)
                        | None => Some w
                        end
            | None => t
            end) as nw1 eqn:Hnw1.
  assert (Hfold : no_later next_wakeup_time nw1).
  { rewrite Hnw1. destruct next_wakeup_time as [w|]; simpl; [|done].
    destruct t as [t|]; eexists; (split; [done|lia]). }
  eapply no_later_trans; [exact Hfold|].
  clear Hnw1 Hfold. revert s1 nw1 Hloop.
  induction jobs as [|job jobs IH]; intros s1 nw; simpl.
  - intros [= _ <-]. apply no_later_refl.
  - intros Hloop. apply bind_Ok_inv in Hloop as (s2 & nw' & Hjob & Hloop).
    eapply no_later_trans; [by eapply process_job_no_later|by eapply IH].
Qed.

(** ** The pending list of a running scheduler *)

(** X14. In every state that [start], [shutdown], [add_executor],
    [add_jobstore], [add_job], [modify_job], [remove_job], [get_jobs], the
    firing loop and the passing of time lead to from a configured scheduler,
    a running scheduler has nothing pending:
    [get_jobs] with [pending=True] returns the empty list, and [remove_job]
    and [modify_job] find no pending job, whatever the id. *)
Theorem nothing_is_pending_while_running s :
  reachable s ->
  running s = true ->
  _pending_jobs s = [] /\
  (forall jobstore, get_jobs jobstore (Some true) s = (s, Ok [])) /\
  (forall job_id, find_pending job_id (_pending_jobs s) = None).
Proof.
  intros Hreach Hrun.
  assert (Hnil : _pending_jobs s = []).
  { apply running_has_no_pending_jobs; [done|].
    unfold running in Hrun. by destruct (_stopped s). }
  split; [done|]. split.
  - intros jobstore. unfold get_jobs. rewrite Hnil. done.
  - intros job_id. by rewrite Hnil.
Qed.

(** ** [print_jobs] *)

Lemma get_jobs_pending_only (jobstore : option string) s :
  get_jobs jobstore (Some true) s =
    (s, Ok (omap (fun '(job, alias) =>
                    if bool_decide (jobstore = None \/ Some alias = jobstore)
                    then Some (mkJobHandle alias job) else None)
                 (_pending_jobs s))).
Proof. by unfold get_jobs. Qed.

Lemma print_jobstores_of_one_store (alias : string) (aliases : list string)
    (out : list Line) s :
  alias <> EmptyString ->
  print_jobstores aliases (Some alias) out s =
    if bool_decide (alias ∈ aliases)
    then (s, out ++ [JobstoreHeading alias],
          Raise (AttributeError "'list' object has no attribute 'items'"))
    else (s, out, Ok tt).
Proof.
  intros Halias. induction aliases as [|a aliases IH]; simpl; [done|].
  destruct (decide (a = alias)) as [->|Hne].
  - rewrite bool_decide_eq_true_2 by (by right).
    rewrite (get_jobs_of_one_store_raises alias (Some false) s Halias) by done.
    rewrite bool_decide_eq_true_2 by (by left). done.
  - rewrite bool_decide_eq_false_2 by (intros [|[=]]; done).
    rewrite IH. destruct (decide (alias ∈ aliases)) as [Hin|Hin].
    + rewrite !bool_decide_eq_true_2; [done| |done]. by right.
    + rewrite !bool_decide_eq_false_2; [done| |done].
      intros [->|]%elem_of_cons; done.
Qed.

(** X18. [print_jobs] for one store.  The pending jobs destined for the
    alias are written first.  If the alias is registered, the heading of the
    store is written and then [AttributeError] is raised, as by [get_jobs]
    for one store: the scheduled jobs are never listed.  If the alias is not
    registered, [print_jobs] returns after the pending jobs. *)
Theorem print_jobs_of_one_store_raises (alias : string) s :
  alias <> EmptyString ->
  let pending :=
    omap (fun '(job, a) => if bool_decide (a = alias)
                           then Some (mkJobHandle a job) else None)
         (_pending_jobs s) in
  let written :=
    if nonempty pending then PendingJobsHeading :: map JobLine pending else [] in
  print_jobs (Some alias) s =
    if bool_decide (is_Some (_jobstores s !! alias))
    then (s, written ++ [JobstoreHeading alias],
          Raise (AttributeError "'list' object has no attribute 'items'"))
    else (s, written, Ok tt).
Proof.
  intros Halias. cbn zeta. unfold print_jobs. rewrite get_jobs_pending_only.
  assert (Hsame :
    omap (fun '(job, a) =>
            if bool_decide (Some alias = None \/ Some a = Some alias)
            then Some (mkJobHandle a job) else None) (_pending_jobs s)
    = omap (fun '(job, a) => if bool_decide (a = alias)
                             then Some (mkJobHandle a job) else None)
           (_pending_jobs s)).
  { apply list_omap_ext, Forall_Forall2_diag, Forall_forall. intros [job a] _.
    destruct (decide (a = alias)) as [->|Hne].
    - rewrite !bool_decide_eq_true_2; [done|done|by right].
    - rewrite !bool_decide_eq_false_2; [done|done|]. intros [|[=]]; done. }
  rewrite Hsame, (print_jobstores_of_one_store alias _ _ s Halias).
  destruct (decide (is_Some (_jobstores s !! alias))) as [Hin|Hin].
  - rewrite !bool_decide_eq_true_2; [done|done|].
    destruct Hin as [st Hst]. apply list_elem_of_fmap.
    exists (alias, st). split; [done|]. by apply elem_of_map_to_list.
  - rewrite !bool_decide_eq_false_2; [done|done|].
    intros ([a st] & -> & Hin')%list_elem_of_fmap.
    apply elem_of_map_to_list in Hin'. apply Hin. by exists st.
Qed.

(** ** [get_job] and the listing of all stores *)

Lemma get_jobs_all_pending s :
  get_jobs None (Some true) s
  = (s, Ok (map (fun p => mkJobHandle p.2 p.1) (_pending_jobs s))).
Proof.
  rewrite get_jobs_pending_only. f_equal. f_equal.
  induction (_pending_jobs s) as [|[job alias] l IH]; [done|].
  simpl. f_equal. exact IH.
Qed.

(** X23. [get_job] asks the store only, so it does not find a job that is
    pending.  On a stopped scheduler that has no store under the job's alias
    (as before the first [start], which creates the default store), the
    handle that [add_job] returns is the last of [get_jobs(pending=True)],
    but [get_job] for the job's id and alias raises [KeyError] and changes
    nothing. *)
Theorem pending_job_is_not_found_by_get_job (a : add_job_args) s :
  running s = false ->
  _jobstores s !! arg_jobstore a = None ->
  let s1 := (add_job a s).1 in
  exists h : JobHandle,
    (add_job a s).2 = Ok h /\
    get_jobs None (Some true) s1
      = (s1, Ok (map (fun p => mkJobHandle p.2 p.1) (_pending_jobs s) ++ [h])) /\
    get_job (arg_id a) (arg_jobstore a) s1 = (s1, Raise (KeyError (arg_jobstore a))).
Proof.
  intros Hrun Hnone. cbn zeta. unfold add_job. rewrite Hrun. simpl.
  eexists. split; [reflexivity|]. split.
  - rewrite get_jobs_all_pending. simpl. by rewrite map_app.
  - unfold get_job. simpl. by rewrite Hnone.
Qed.

Lemma set_trace_set_trace tr tr' s : set_trace tr' (set_trace tr s) = set_trace tr' s.
Proof. done. Qed.

Lemma get_all_jobs_loop (l : list (string * S)) (acc : list JobHandle) s :
  (forall st : S, exists jobs, store_get_all_jobs st = (st, Ok jobs)) ->
  (forall alias st, (alias, st) ∈ l -> _jobstores s !! alias = Some st) ->
  exists tr,
    for_each l
      (fun '(alias, _) jobs =>
         bind (call_jobstore alias get_all_jobs_call store_get_all_jobs)
              (fun stored => ret (jobs ++ map (mkJobHandle alias) stored)))
      acc s
    = (set_trace tr s,
       Ok (acc ++ flat_map (fun '(alias, store) =>
                              match (store_get_all_jobs store).2 with
                              | Ok jobs => map (mkJobHandle alias) jobs
                              | Raise _ => []
                              end) l)).
Proof.
  intros Hro. revert acc s.
  induction l as [|[alias st] l IH]; intros acc s Hreg.
  - exists (trace s). simpl. unfold ret. rewrite app_nil_r. by destruct s.
  - assert (Hst : _jobstores s !! alias = Some st) by (apply Hreg; left).
    destruct (Hro st) as [jobs Hjobs].
    change (for_each ((alias, st) :: l) ?f acc s)
      with (bind (f (alias, st) acc) (for_each l f) s).
    unfold bind at 1. unfold bind at 1. unfold call_jobstore at 1. rewrite Hst, Hjobs.
    rewrite insert_id by done.
    replace (set_jobstores (_jobstores s) s) with s by (by destruct s).
    unfold ret at 1.
    destruct (IH (acc ++ map (mkJobHandle alias) jobs)
                (set_trace (trace s ++ [StoreCall alias get_all_jobs_call (raised (Ok jobs))]) s))
      as [tr Htr].
    { intros alias' st' Hin. simpl. apply Hreg. by right. }
    exists tr. rewrite Htr, set_trace_set_trace. f_equal. f_equal.
    simpl. rewrite Hjobs. simpl. by rewrite app_assoc.
Qed.

Lemma get_jobs_of_all_stores s :
  (forall st : S, exists jobs, store_get_all_jobs st = (st, Ok jobs)) ->
  exists tr, get_jobs None (Some false) s = (set_trace tr s, Ok (all_jobs s)).
Proof.
  intros Hro. unfold get_jobs.
  rewrite (bool_decide_eq_false_2 (Some false ≠ Some false)) by (intros Hne; by apply Hne).
  rewrite (bool_decide_eq_true_2 (Some false ≠ Some true)) by done.
  unfold bind at 1. simpl.
  destruct (get_all_jobs_loop (map_to_list (_jobstores s)) [] s Hro) as [tr Htr].
  { intros alias st Hin. by apply elem_of_map_to_list in Hin. }
  exists tr. exact Htr.
Qed.

Lemma print_jobstores_of_all_stores (aliases : list string) (out : list Line) s :
  (forall st : S, exists jobs, store_get_all_jobs st = (st, Ok jobs)) ->
  exists tr,
    print_jobstores aliases None out s
    = (set_trace tr s,
       out ++ flat_map (fun alias =>
                          JobstoreHeading alias
                          :: (if nonempty (all_jobs s) then map JobLine (all_jobs s)
                              else [NoScheduledJobs]))
                       aliases,
       Ok tt).
Proof.
  intros Hro. revert out s.
  induction aliases as [|alias aliases IH]; intros out s.
  - exists (trace s). simpl. rewrite app_nil_r. by destruct s.
  - simpl.
    destruct (get_jobs_of_all_stores s Hro) as [tr1 ->].
    destruct (IH (if nonempty (all_jobs s)
                  then (out ++ [JobstoreHeading alias]) ++ map JobLine (all_jobs s)
                  else (out ++ [JobstoreHeading alias]) ++ [NoScheduledJobs])
                (set_trace tr1 s)) as [tr Htr].
    exists tr. rewrite Htr, set_trace_set_trace.
    change (all_jobs (set_trace tr1 s)) with (all_jobs s).
    destruct (nonempty (all_jobs s)); by rewrite <- !app_assoc.
Qed.

(** X24. [print_jobs] without an alias asks [get_jobs] for the jobs of all
    stores under each heading.  If the stores list their jobs without
    failing, the pending jobs are written first, and then every store's
    heading is followed by the same lines: the jobs of all the stores, not
    those of the store in the heading. *)
Theorem print_jobs_lists_all_jobs_under_every_store s :
  (forall st : S, exists jobs, store_get_all_jobs st = (st, Ok jobs)) ->
  let pending := map (fun p => mkJobHandle p.2 p.1) (_pending_jobs s) in
  let listing :=
    if nonempty (all_jobs s) then map JobLine (all_jobs s) else [NoScheduledJobs] in
  (print_jobs None s).1.2
  = (if nonempty pending then PendingJobsHeading :: map JobLine pending else [])
    ++ flat_map (fun alias => JobstoreHeading alias :: listing)
                (map_to_list (_jobstores s)).*1 /\
  (print_jobs None s).2 = Ok tt.
Proof.
  intros Hro. cbn zeta. unfold print_jobs. rewrite get_jobs_all_pending.
  match goal with
  | |- context [print_jobstores ?l None ?out s] =>
      destruct (print_jobstores_of_all_stores l out s Hro) as [tr Htr]
  end.
  by rewrite Htr.
Qed.
End Further.

(** ** Listeners *)

Section ListenerProperties.
Context {C : Type} `{EqDecision C}.

Implicit Types (l : list (C * Z)) (cb callback : C).

Lemma remove_from_cons (steps i : nat) callback (x : C * Z) l :
  Listeners.remove_from steps (Datatypes.S i) callback (x :: l)
  = x :: Listeners.remove_from steps i callback l.
Proof.
  revert i l. induction steps as [|steps IH]; intros i l; simpl; [done|].
  destruct (l !! i) as [[cb mask]|]; [|done].
  destruct (decide (callback = cb)); apply IH.
Qed.

Lemma remove_from_step (steps i : nat) callback l :
  Listeners.remove_from (Datatypes.S steps) i callback l =
    match l !! i with
    | None => l
    | Some (cb, _) =>
        if decide (callback = cb)
        then Listeners.remove_from steps (Datatypes.S i) callback (delete i l)
        else Listeners.remove_from steps (Datatypes.S i) callback l
    end.
Proof. done. Qed.

Lemma remove_from_more_steps (steps i : nat) callback l :
  (length l <= i + steps)%nat ->
  Listeners.remove_from (Datatypes.S steps) i callback l
  = Listeners.remove_from steps i callback l.
Proof.
  revert i l. induction steps as [|steps IH]; intros i l Hlen.
  - simpl. rewrite lookup_ge_None_2 by lia. done.
  - rewrite (remove_from_step (Datatypes.S steps) i callback l),
      (remove_from_step steps i callback l).
    destruct (l !! i) as [[cb mask]|] eqn:Hi; [|done].
    destruct (decide (callback = cb)); apply IH.
    + rewrite length_delete by eauto. apply lookup_lt_Some in Hi. lia.
    + lia.
Qed.

Lemma remove_listener_other callback cb (mask : Z) l :
  callback <> cb ->
  Listeners.remove_listener callback ((cb, mask) :: l)
  = (cb, mask) :: Listeners.remove_listener callback l.
Proof.
  intros Hne. unfold Listeners.remove_listener.
  change (length ((cb, mask) :: l)) with (Datatypes.S (length l)).
  rewrite remove_from_step.
  change (((cb, mask) :: l) !! 0%nat) with (Some (cb, mask)). cbv beta iota.
  rewrite decide_False by done. apply remove_from_cons.
Qed.

Lemma remove_listener_last callback (mask : Z) :
  Listeners.remove_listener callback [(callback, mask)] = [].
Proof. unfold Listeners.remove_listener. simpl. by rewrite decide_True. Qed.

Lemma remove_listener_next callback (mask : Z) (x : C * Z) l :
  Listeners.remove_listener callback ((callback, mask) :: x :: l)
  = x :: Listeners.remove_listener callback l.
Proof.
  unfold Listeners.remove_listener.
  change (length ((callback, mask) :: x :: l))
    with (Datatypes.S (Datatypes.S (length l))).
  rewrite remove_from_step.
  change (((callback, mask) :: x :: l) !! 0%nat) with (Some (callback, mask)).
  cbv beta iota. rewrite decide_True by done.
  change (delete 0%nat ((callback, mask) :: x :: l)) with (x :: l).
  rewrite remove_from_cons. f_equal. apply remove_from_more_steps. lia.
Qed.

(** X19. [remove_listener] walks the list by position while it deletes from
    it, so the registration that follows a deleted one is passed over, also
    when it is a registration of the same callback.  The three equations
    give the whole behaviour: other callbacks are kept, a last registration
    of the callback is removed, and after a removed registration the next
    entry is kept as it is. *)
Theorem remove_listener_passes_over_next callback cb (mask : Z) (x : C * Z) l :
  (callback <> cb ->
   Listeners.remove_listener callback ((cb, mask) :: l)
   = (cb, mask) :: Listeners.remove_listener callback l) /\
  Listeners.remove_listener callback [(callback, mask)] = [] /\
  Listeners.remove_listener callback ((callback, mask) :: x :: l)
  = x :: Listeners.remove_listener callback l.
Proof.
  split; [apply remove_listener_other|].
  split; [apply remove_listener_last|apply remove_listener_next].
Qed.

(** X20. If no registration of the callback directly follows another one,
    as when the callback is registered once, [remove_listener] removes every
    registration of the callback and keeps the other listeners in their
    order. *)
Theorem remove_listener_removes_all_when_not_adjacent callback l :
  (forall i (mask1 mask2 : Z),
     l !! i = Some (callback, mask1) -> l !! Datatypes.S i = Some (callback, mask2) ->
     False) ->
  Listeners.remove_listener callback l = filter (fun p => p.1 <> callback) l.
Proof.
  remember (length l) as n eqn:Hn. revert l Hn.
  induction n as [n IH] using lt_wf_ind. intros l Hn Hadj.
  destruct l as [|[cb mask] l]; [done|].
  destruct (decide (callback = cb)) as [<-|Hne].
  - rewrite filter_cons_False by (simpl; by intros []).
    destruct l as [|[cb' mask'] l].
    + apply remove_listener_last.
    + assert (Hne' : cb' <> callback).
      { intros ->. by apply (Hadj 0%nat mask mask'). }
      rewrite remove_listener_next, filter_cons_True by done. f_equal.
      apply (IH (length l)); [simpl in Hn; lia|done|].
      intros i m1 m2 H1 H2. by apply (Hadj (Datatypes.S (Datatypes.S i)) m1 m2).
  - rewrite remove_listener_other, filter_cons_True by done. f_equal.
    apply (IH (length l)); [simpl in Hn; lia|done|].
    intros i m1 m2 H1 H2. by apply (Hadj (Datatypes.S i) m1 m2).
Qed.

(** X21. [add_listener] followed by [remove_listener] for a callback that was
    not registered before gives back the list of listeners as it was. *)
Theorem add_then_remove_listener callback (mask : Z) l :
  (forall mask', (callback, mask') ∉ l) ->
  Listeners.remove_listener callback (Listeners.add_listener callback mask l) = l.
Proof.
  unfold Listeners.add_listener. induction l as [|[cb mask'] l IH]; intros Hnot.
  - apply remove_listener_last.
  - simpl. rewrite remove_listener_other.
    + f_equal. apply IH. intros m Hin. apply (Hnot m). by right.
    + intros <-. apply (Hnot mask'). by left.
Qed.

(** X22. A listener that raises does not keep the event from the others.
    [_notify_listeners] calls the listeners whose mask has a bit of the
    event code, each once and in the order of registration, whichever of
    them raise; it logs one error for each that raises. *)
Theorem notify_calls_every_selected_listener (raises : C -> bool) (code : Z) l :
  Listeners.calls (Listeners._notify_listeners raises code l)
  = (filter (fun p => Z.land code p.2 <> 0) l).*1 /\
  length (Listeners._notify_listeners raises code l)
  = (length (filter (fun p => (Z.land code p.2 <> 0)%Z) l)
     + length (filter (fun p => (Z.land code p.2 <> 0)%Z /\ raises p.1 = true) l))%nat.
Proof.
  unfold Listeners._notify_listeners, Listeners.calls.
  induction l as [|[cb mask] l [IHc IHn]]; [done|]. simpl.
  rewrite omap_app, length_app, IHc, IHn.
  destruct (Z.eqb_spec (Z.land code mask) 0) as [Heq|Hne].
  - rewrite !filter_cons_False by (simpl; tauto). done.
  - rewrite (filter_cons_True (fun p => Z.land code p.2 <> 0)) by done.
    destruct (raises cb) eqn:Hr.
    + rewrite filter_cons_True by done. simpl. split; [done|lia].
    + rewrite filter_cons_False by (simpl; intros [_ ?]; congruence). simpl.
      split; [done|lia].
Qed.
End ListenerProperties.

(** * The further properties on concrete schedulers *)

(** Two jobs are pending; [start] returns, the scheduler runs with nothing
    pending, and a second [start] raises. *)
Lemma start_makes_scheduler_ready_witness :
  let s' := exec start two_pending in
  start two_pending = (s', Ok tt) /\
  length (_pending_jobs two_pending) = 2%nat /\
  running s' = true /\ _pending_jobs s' = [] /\
  start s' = (s', Raise SchedulerAlreadyRunningError).
Proof.
  cbn zeta.
  assert (H : start two_pending = (exec start two_pending, Ok tt))
    by (vm_compute; reflexivity).
  destruct (start_makes_scheduler_ready two_pending _ H)
    as (Hs & Hp & _ & _ & _ & _ & Hagain & _).
  split; [exact H|]. split; [reflexivity|].
  split; [unfold running; rewrite Hs; reflexivity|]. split; assumption.
Defined.

(** The jobs [a] and [b] were added in this order; [start] at time [0]
    stores [a] and then [b], both to fire at [0]. *)
Lemma start_stores_pending_jobs_in_order_witness :
  map (fun p => (p.1, Job.id p.2, Job.next_run_time p.2))
      (store_adds (trace (exec start two_pending)))
  = [("default", Some "a", Some 0); ("default", Some "b", Some 0)].
Proof.
  assert (H : start two_pending = (exec start two_pending, Ok tt))
    by (vm_compute; reflexivity).
  rewrite (start_stores_pending_jobs_in_order two_pending _ H).
  vm_compute. reflexivity.
Defined.

(** The job [b] is destined for a store that is not registered: [start]
    raises after it has stored [a], and both entries are pending still. *)
Lemma start_failure_keeps_pending_jobs_witness :
  let s' := exec start misrouted in
  start misrouted = (s', Raise (KeyError "No such job store: %s")) /\
  running s' = false /\
  (_pending_jobs s').*2 = ["default"; "nowhere"] /\
  map Job.id (stored_jobs s' "default") = [Some "a"].
Proof.
  cbn zeta.
  assert (H : start misrouted
              = (exec start misrouted, Raise (KeyError "No such job store: %s")))
    by (vm_compute; reflexivity).
  destruct (start_failure_keeps_pending_jobs misrouted _ _ H) as (Hs & Hp).
  split; [exact H|].
  split; [unfold running; rewrite Hs; reflexivity|].
  split; [|vm_compute; reflexivity].
  rewrite Hp. vm_compute. reflexivity.
Defined.

(** One executor and one store: [shutdown(True)] stops the executor, closes
    the store, logs and emits the event. *)
Lemma shutdown_stops_executors_then_closes_stores_witness :
  let s := ticking None true 0 in
  skipn (length (trace s)) (trace (exec (shutdown true) s))
  = [ExecutorCall "default" (shutdown_call true) None;
     StoreCall "default" close_call None;
     Log INFO "Scheduler has been shut down";
     Notify (SchedulerEvent EVENT_SCHEDULER_SHUTDOWN)].
Proof.
  cbn zeta.
  assert (H : shutdown true (ticking None true 0)
              = (exec (shutdown true) (ticking None true 0), Ok tt))
    by (vm_compute; reflexivity).
  rewrite (shutdown_stops_executors_then_closes_stores true _ _ H).
  vm_compute. reflexivity.
Defined.

(** The store cannot be closed: [shutdown] raises, the scheduler is stopped
    and a second [shutdown] raises [SchedulerNotRunningError]. *)
Lemma shutdown_failure_leaves_scheduler_stopped_witness :
  let s' := exec (shutdown true) on_broken_store in
  running on_broken_store = true /\
  shutdown true on_broken_store = (s', Raise (Exception "store unavailable")) /\
  running s' = false /\
  events (trace s') = events (trace on_broken_store) /\
  shutdown true s' = (s', Raise SchedulerNotRunningError).
Proof.
  cbn zeta.
  assert (Hrun : running on_broken_store = true) by reflexivity.
  assert (H : shutdown true on_broken_store
              = (exec (shutdown true) on_broken_store,
                 Raise (Exception "store unavailable")))
    by (vm_compute; reflexivity).
  destruct (shutdown_failure_leaves_scheduler_stopped true _ _ _ Hrun H)
    as (Hs & Hev & Hagain).
  split; [exact Hrun|]. split; [exact H|].
  split; [unfold running; rewrite Hs; reflexivity|].
  split; [exact Hev|apply Hagain].
Defined.

(** A started scheduler has an executor [default]: another one under this
    alias is refused. *)
Lemma add_executor_registers_once_witness :
  let s := exec start fresh in
  add_executor (mkPoolExecutor []) "default" s
  = (s, Raise (KeyError "This scheduler already has an executor by the alias of '%s'")).
Proof.
  cbn zeta.
  apply (proj1 (add_executor_registers_once (mkPoolExecutor []) "default"
                  (exec start fresh))).
  exists (mkPoolExecutor []). vm_compute. reflexivity.
Defined.

(** A started scheduler has a store [default]: another one under this alias
    is refused. *)
Lemma add_jobstore_registers_once_witness :
  let s := exec start fresh in
  add_jobstore (mkMemoryJobStore []) "default" false s
  = (s, Raise (KeyError "Alias '%s' is already in use")).
Proof.
  cbn zeta.
  apply (proj1 (add_jobstore_registers_once (mkMemoryJobStore []) "default" false
                  (exec start fresh))).
  exists (mkMemoryJobStore []). vm_compute. reflexivity.
Defined.

(** The store cannot be closed: [remove_jobstore] with [close=True] raises,
    and the store is not registered any more. *)
Lemma remove_jobstore_unregisters_before_close_witness :
  let s' := exec (remove_jobstore "default" true) on_broken_store in
  _jobstores on_broken_store !! "default" = Some broken_jobstore /\
  (remove_jobstore "default" true on_broken_store).2
    = Raise (Exception "store unavailable") /\
  _jobstores s' !! "default" = None /\
  events (trace s') = events (trace on_broken_store).
Proof.
  cbn zeta.
  assert (Hst : _jobstores on_broken_store !! "default" = Some broken_jobstore)
    by (vm_compute; reflexivity).
  destruct (proj2 (remove_jobstore_unregisters_before_close "default" true
                     on_broken_store) _ Hst) as (Hreg & Hfail & _).
  destruct (Hfail (Exception "store unavailable") eq_refl eq_refl) as (Hr & Hev).
  split; [exact Hst|]. split; [exact Hr|]. split; [|exact Hev].
  unfold exec. rewrite Hreg. apply lookup_delete_eq.
Defined.

(** A second store is registered and removed again. *)
Lemma add_then_remove_jobstore_witness :
  let s := exec start fresh in
  let s1 := exec (add_jobstore (mkMemoryJobStore []) "archive" false) s in
  let s2 := exec (remove_jobstore "archive" false) s1 in
  _jobstores s !! "archive" = None /\
  is_Some (_jobstores s1 !! "archive") /\
  _jobstores s2 = _jobstores s /\
  store_calls (trace s2) = store_calls (trace s).
Proof.
  cbn zeta.
  assert (Hfree : _jobstores (exec start fresh) !! "archive" = None)
    by (vm_compute; reflexivity).
  destruct (add_then_remove_jobstore (mkMemoryJobStore []) "archive" false
              (exec start fresh) Hfree) as (_ & Hreg & _ & _ & _ & _ & Hcalls).
  split; [exact Hfree|].
  split; [exists (mkMemoryJobStore []); vm_compute; reflexivity|].
  split; [exact Hreg|exact Hcalls].
Defined.

(** The job [a] is added to a stopped scheduler for the store [default] and
    removed with another store alias. *)
Lemma add_job_then_remove_job_while_stopped_witness :
  remove_job (Some "a") "elsewhere" (exec (add_job (job_for "a" "default" "default")) fresh)
  = (set_trace
       [Log INFO
          "Adding job tentatively -- it will be properly scheduled when the scheduler starts"]
       fresh,
     Ok tt).
Proof.
  apply (add_job_then_remove_job_while_stopped (job_for "a" "default" "default")
           "elsewhere" fresh); reflexivity.
Defined.

(** A started scheduler has no store [nowhere]. *)
Lemma add_job_to_unknown_store_raises_witness :
  let s := exec start fresh in
  add_job (job_for "a" "nowhere" "default") s
  = (s, Raise (KeyError "No such job store: %s")).
Proof.
  cbn zeta.
  apply (add_job_to_unknown_store_raises (job_for "a" "nowhere" "default")
           (exec start fresh)); vm_compute; reflexivity.
Defined.

(** The store has no job [nope]: [remove_job] raises and emits nothing. *)
Lemma failed_mutation_notifies_nobody_witness :
  let s := ticking None true 0 in
  let s' := exec (remove_job (Some "nope") "default") s in
  remove_job (Some "nope") "default" s = (s', Raise JobNotFound) /\
  events (trace s') = events (trace s) /\
  wakeups (trace s') = wakeups (trace s).
Proof.
  cbn zeta.
  assert (H : remove_job (Some "nope") "default" (ticking None true 0)
              = (exec (remove_job (Some "nope") "default") (ticking None true 0),
                 Raise JobNotFound))
    by (vm_compute; reflexivity).
  destruct (proj1 (failed_mutation_notifies_nobody (Some "nope") "default" ∅ _ _ _) H)
    as (Hev & Hw & _).
  split; [exact H|]. split; assumption.
Defined.

(** The job [tick] is to be renamed [tock]: the store is asked for [tock],
    which it does not have, and [tick] stays as it is. *)
Lemma modify_job_looks_up_the_new_id_witness :
  let s := ticking None true 0 in
  let changes : dict := {[ "id" := VStr "tock" ]} in
  map Job.id (stored_jobs s "default") = [Some "tick"] /\
  (modify_job (Some "tick") "default" changes s).2 = Raise JobNotFound /\
  store_calls (trace (exec (modify_job (Some "tick") "default" changes) s))
    = store_calls (trace s) ++ [("default", lookup_job_call (Some "tock"))] /\
  stored_jobs (exec (modify_job (Some "tick") "default" changes) s) "default"
    = stored_jobs s "default".
Proof.
  cbn zeta.
  assert (Hp : find_pending (Some "tick") (_pending_jobs (ticking None true 0)) = None)
    by (vm_compute; reflexivity).
  assert (Hst : _jobstores (ticking None true 0) !! "default"
                = Some (mkMemoryJobStore [tick (ticking None true 0)]))
    by (vm_compute; reflexivity).
  assert (Hid : ({[ "id" := VStr "tock" ]} : dict) !! "id" = Some (VStr "tock"))
    by (vm_compute; reflexivity).
  assert (He : (store_lookup_job (mkMemoryJobStore [tick (ticking None true 0)])
                  (Some "tock")).2 = Raise JobNotFound)
    by (vm_compute; reflexivity).
  destruct (modify_job_looks_up_the_new_id (Some "tick") "tock" "default" _ _ _
              Hp Hst Hid) as (Hfail & _).
  specialize (Hfail _ He).
  split; [vm_compute; reflexivity|].
  unfold exec. rewrite Hfail.
  split; [reflexivity|]. split; vm_compute; reflexivity.
Defined.

(** The scheduler with the job [tick], started: it is reachable and runs. *)
Lemma nothing_is_pending_while_running_witness :
  let s := ticking None true 0 in
  running s = true /\
  _pending_jobs s = [] /\
  get_jobs None (Some true) s = (s, Ok []) /\
  find_pending (Some "tick") (_pending_jobs s) = None.
Proof.
  cbn zeta.
  assert (Hreach : reachable (ticking None true 0)).
  { apply reach_clock, reach_start, reach_add_job, reach_configured; reflexivity. }
  assert (Hrun : running (ticking None true 0) = true) by (vm_compute; reflexivity).
  destruct (nothing_is_pending_while_running _ Hreach Hrun) as (Hp & Hget & Hfind).
  split; [exact Hrun|]. split; [exact Hp|]. split; [apply Hget|apply Hfind].
Defined.

(** The job [a] is due and is to run on the executor [gpu], which is not
    registered: the job stays in its store as it is. *)
Lemma job_state_advances_only_after_submission_witness :
  let s := without_executor in
  let out := process_job 0 "default" stored_a None s in
  _executors s !! Job.executor stored_a = None /\
  get_run_times stored_a 0 = [0] /\
  out.2 = Ok None /\
  _jobstores out.1 = _jobstores s /\
  store_calls (trace out.1) = store_calls (trace s).
Proof.
  cbn zeta.
  assert (Hex : _executors without_executor !! Job.executor stored_a = None)
    by (vm_compute; reflexivity).
  destruct (job_state_advances_only_after_submission 0 "default" stored_a None
              without_executor) as (Hr & Hst & _ & Hcalls & _).
  { intros ex Hsome. rewrite Hex in Hsome. discriminate Hsome. }
  split; [exact Hex|]. split; [vm_compute; reflexivity|].
  split; [exact Hr|]. split; [exact Hst|exact Hcalls].
Defined.

(** A wakeup in ten seconds was found already; the store [default] has a job
    to fire at three seconds, and the wakeup time becomes three seconds. *)
Lemma wakeup_time_only_moves_earlier_witness :
  let s := ticking (Some 5) false (2 * second) in
  (process_jobstore (2 * second) "default" (Some (10 * second)) s).2
    = Ok (Some (3 * second)) /\
  no_later (Some (10 * second)) (Some (3 * second)).
Proof.
  cbn zeta.
  assert (H : process_jobstore (2 * second) "default" (Some (10 * second))
                (ticking (Some 5) false (2 * second))
              = (exec (process_jobstore (2 * second) "default" (Some (10 * second)))
                   (ticking (Some 5) false (2 * second)),
                 Ok (Some (3 * second))))
    by (vm_compute; reflexivity).
  split; [rewrite H; reflexivity|].
  exact (wakeup_time_only_moves_earlier _ _ _ _ _ _ H).
Defined.

(** The store [default] holds the job [tick]: [print_jobs('default')] writes
    the heading of the store and raises. *)
Lemma print_jobs_of_one_store_raises_witness :
  let s := ticking None true 0 in
  map Job.id (stored_jobs s "default") = [Some "tick"] /\
  print_jobs (Some "default") s
  = (s, [JobstoreHeading "default"],
     Raise (AttributeError "'list' object has no attribute 'items'")).
Proof.
  cbn zeta. split; [vm_compute; reflexivity|].
  rewrite (print_jobs_of_one_store_raises "default" (ticking None true 0))
    by discriminate.
  vm_compute. reflexivity.
Defined.

(** The callback [1] is registered twice in a row: one [remove_listener]
    leaves the second registration. *)
Lemma remove_listener_passes_over_next_witness :
  Listeners.remove_listener 1%nat [(1%nat, 255); (1%nat, 3); (2%nat, 255)]
  = [(1%nat, 3); (2%nat, 255)].
Proof.
  destruct (remove_listener_passes_over_next 1%nat 2%nat 255 (1%nat, 3) [(2%nat, 255)])
    as (_ & _ & Hnext).
  rewrite Hnext. vm_compute. reflexivity.
Defined.

(** The two registrations of the callback [1] are not adjacent: both are
    removed. *)
Lemma remove_listener_removes_all_when_not_adjacent_witness :
  Listeners.remove_listener 1%nat listeners_121 = [(2%nat, 255)].
Proof.
  rewrite (remove_listener_removes_all_when_not_adjacent 1%nat listeners_121).
  - vm_compute. reflexivity.
  - intros i mask1 mask2 H1 H2.
    destruct i as [|[|[|i]]]; simpl in H1, H2; congruence.
Defined.

(** The callback [1] is added to the listeners and removed again. *)
Lemma add_then_remove_listener_witness :
  Listeners.remove_listener 1%nat (Listeners.add_listener 1%nat 255 [(2%nat, 255)])
  = [(2%nat, 255)].
Proof.
  apply (add_then_remove_listener 1%nat 255 [(2%nat, 255)]).
  intros mask' Hin. apply list_elem_of_singleton in Hin. congruence.
Defined.

(** The job [a] is pending on a scheduler that was never started:
    [get_jobs] lists it, [get_job] raises. *)
Lemma pending_job_is_not_found_by_get_job_witness :
  let s1 := exec (add_job (job_for "a" "default" "default")) fresh in
  (exists h, (add_job (job_for "a" "default" "default") fresh).2 = Ok h /\
             (get_jobs None (Some true) s1).2 = Ok [h]) /\
  get_job (Some "a") "default" s1 = (s1, Raise (KeyError "default")).
Proof.
  cbn zeta.
  assert (Hrun : running fresh = false) by (vm_compute; reflexivity).
  assert (Hnone : _jobstores fresh !! arg_jobstore (job_for "a" "default" "default") = None)
    by (vm_compute; reflexivity).
  destruct (pending_job_is_not_found_by_get_job (job_for "a" "default" "default") fresh
              Hrun Hnone) as (h & Hh & Hjobs & Hget).
  split; [|exact Hget].
  exists h. split; [exact Hh|]. unfold exec. rewrite Hjobs. reflexivity.
Defined.

(** The store [default] holds the job [a] and the store [archive] the job
    [b]: both jobs are written under either heading. *)
Lemma print_jobs_lists_all_jobs_under_every_store_witness :
  map Job.id (stored_jobs two_stores "default") = [Some "a"] /\
  map Job.id (stored_jobs two_stores "archive") = [Some "b"] /\
  map shown (print_jobs None two_stores).1.2
  = ["Jobstore archive:"; "b"; "a"; "Jobstore default:"; "b"; "a"].
Proof.
  split; [vm_compute; reflexivity|]. split; [vm_compute; reflexivity|].
  destruct (print_jobs_lists_all_jobs_under_every_store two_stores) as [Hlines _].
  { intros st. exists (mem_jobs st). reflexivity. }
  rewrite Hlines. vm_compute. reflexivity.
Defined.
